(** * string_suggestion.cc : a shallow embedding and its properties

    The file embeds [src/private/string_suggestion.cc] of the Octave
    package manager: the edit generator [edits], the filter [known], the
    selection [max_element] with the comparator [sortBySecond], the
    routine [correct] and the entry point [string_suggestion].

    Modelling choices.
    - A [std::string] is a [string]: a sequence of 8-bit characters, compared
      as unsigned bytes, which is what [String.compare] does.
    - [std::string::size_type] is a 64-bit unsigned integer.  Sizes and
      positions are in [Z]; the one place where the program subtracts from a
      size has its wrap-around written out ([size_sub]).
    - [substr] throws [std::out_of_range] when the position is past the end,
      and [operator[]] has undefined behaviour past the terminator.  Both are
      a [fault]; a computation has an [outcome]: a value or a fault.
    - A [std::vector<std::string>] is a [list string]; [push_back] appends.
    - A [std::map<std::string,int>] is an association list kept strictly
      increasing in its keys, so that walking the list is walking the map
      from [begin()] to [end()].
    - The global [dictionary] is threaded explicitly.
    - Memory is unbounded, and the [unsigned int] counters that walk vectors
      do not wrap: a vector has fewer than 2^32 entries. *)

From Stdlib Require Import ZArith List String Ascii Bool Lia.
From Stdlib Require Import Sorting.Sorted OrderedTypeEx.
Import ListNotations.

Open Scope string_scope.
Open Scope Z_scope.

(** ** Results and faults *)

Inductive fault : Type :=
| out_of_range        (* the exception thrown by [substr] *)
| undefined_behaviour (* an access the language gives no meaning to *).

Inductive outcome (A : Type) : Type :=
| Ok (a : A)
| Raise (f : fault).

Arguments Ok {A} a.
Arguments Raise {A} f.

Definition bind {A B : Type} (x : outcome A) (k : A -> outcome B) : outcome B :=
  match x with
  | Ok a => k a
  | Raise f => Raise f
  end.

Notation "x <- c1 ;; c2" := (bind c1 (fun x => c2))
  (at level 61, c1 at next level, right associativity).

Definition is_ok {A : Type} (x : outcome A) : bool :=
  match x with
  | Ok _ => true
  | Raise _ => false
  end.

Definition outcome_map {A B : Type} (f : A -> B) (x : outcome A) : outcome B :=
  a <- x ;; Ok (f a).

(** ** The pieces of the C++ library the program uses *)

Module Cxx.

(** [size_type] arithmetic: 64 bits, unsigned.  A string is shorter than
    [max_size()], far below [size_max], so adding 1 or 2 to a position of a
    string cannot wrap; subtracting can, and [size_sub] writes the borrow
    out. *)
Definition size_bits : Z := 64.
Definition size_max : Z := 2 ^ size_bits - 1.

Definition size_sub (a b : Z) : Z :=
  if a <? b then a - b + 2 ^ size_bits else a - b.

Definition size (s : string) : Z := Z.of_nat (String.length s).

(** The first [n] characters of [s] (all of [s] when it is shorter). *)
Fixpoint take (n : nat) (s : string) : string :=
  match n, s with
  | O, _ => EmptyString
  | S _, EmptyString => EmptyString
  | S n', String c s' => String c (take n' s')
  end.

(** [s] without its first [n] characters. *)
Fixpoint drop (n : nat) (s : string) : string :=
  match n, s with
  | O, _ => s
  | S _, EmptyString => EmptyString
  | S n', String _ s' => drop n' s'
  end.

(** [s.substr(pos, n)]: throws when [pos > size()], otherwise the
    characters from [pos], at most [n] of them. *)
Definition substr (s : string) (pos n : Z) : outcome string :=
  if size s <? pos then Raise out_of_range
  else Ok (take (Z.to_nat (Z.min n (size s - pos))) (drop (Z.to_nat pos) s)).

(** [s.substr(pos)]: the count defaults to [npos], which asks for the
    characters from [pos] to the end. *)
Definition substr_from (s : string) (pos : Z) : outcome string :=
  if size s <? pos then Raise out_of_range
  else Ok (drop (Z.to_nat pos) s).

(** [s[pos]] on a const string: the character at [pos], the terminator at
    [pos = size()], undefined behaviour beyond. *)
Definition at_index (s : string) (pos : Z) : outcome ascii :=
  match String.get (Z.to_nat pos) s with
  | Some c => Ok c
  | None => if pos =? size s then Ok zero else Raise undefined_behaviour
  end.

(** [s + c] for a character [c]. *)
Definition append_char (s : string) (c : ascii) : string :=
  s ++ String c EmptyString.

(** [v.push_back(x)]. *)
Definition push_back (v : list string) (x : string) : list string :=
  (v ++ [x])%list.

(** [for (size_type i = first; i < first + count; i++) body]: the body runs
    at each position in turn and the loop stops at the first fault. *)
Fixpoint for_loop {S : Type} (count : nat) (i : Z)
    (body : Z -> S -> outcome S) (s : S) : outcome S :=
  match count with
  | O => Ok s
  | Datatypes.S count' => s' <- body i s ;; for_loop count' (i + 1) body s'
  end.

(** [for (size_type i = 0; i < bound; i++) body]. *)
Definition for_size {S : Type} (bound : Z)
    (body : Z -> S -> outcome S) (s : S) : outcome S :=
  for_loop (Z.to_nat bound) 0 body s.

(** A loop over the elements of a vector or over a range of characters,
    in order, stopping at the first fault. *)
Fixpoint for_each {A S : Type} (v : list A)
    (body : A -> S -> outcome S) (s : S) : outcome S :=
  match v with
  | [] => Ok s
  | x :: v' => s' <- body x s ;; for_each v' body s'
  end.

(** [std::map<std::string,int>]: keys strictly increasing. *)
Definition map_t : Type := list (string * Z).

(** [m.find(k)]: the entry with key [k], or [None] for [end()]. *)
Fixpoint find (m : map_t) (k : string) : option (string * Z) :=
  match m with
  | [] => None
  | (k', v') :: m' => if String.eqb k' k then Some (k', v') else find m' k
  end.

(** [m.size()]. *)
Definition map_size (m : map_t) : Z := Z.of_nat (List.length m).

(** [m[k] = v]: overwrite the entry of [k] or insert it in key order. *)
Fixpoint assign (m : map_t) (k : string) (v : Z) : map_t :=
  match m with
  | [] => [(k, v)]
  | (k', v') :: m' =>
      match String.compare k k' with
      | Lt => (k, v) :: m
      | Eq => (k, v) :: m'
      | Gt => (k', v') :: assign m' k v
      end
  end.

(** [std::max_element(first, last, comp)] walks the range once and keeps
    the first element that no later one beats: it starts with
    [largest = first] and, for each later position, moves [largest] there
    when [comp] puts the element at [largest] below the one at that position.
    The result is [None] (the iterator [last]) on an empty range. *)
Fixpoint max_element_from {A : Type} (comp : A -> A -> bool)
    (largest : A) (rest : list A) : A :=
  match rest with
  | [] => largest
  | x :: rest' =>
      max_element_from comp (if comp largest x then x else largest) rest'
  end.

Definition max_element {A : Type} (comp : A -> A -> bool)
    (range : list A) : option A :=
  match range with
  | [] => None
  | x :: rest => Some (max_element_from comp x rest)
  end.

End Cxx.

Import Cxx.

(** ** The program *)

(** [sortBySecond], lines 44-48. *)
Definition sortBySecond (left right : string * Z) : bool :=
  snd left <? snd right.

(** The characters ['a'] to ['z'] that the loop of line 61 walks. *)
Definition alphabet : list ascii :=
  List.map ascii_of_nat (List.seq 97 26).

(** [edits], lines 52-70.  The operands of a concatenation are evaluated
    from left to right here.  The language leaves their order open; this
    decides which fault is met first, not whether one is met: every operand
    is evaluated before the string is pushed. *)
Definition edits (word : string) (results : list string)
    : outcome (list string) :=
  (* Deletions *)
  results <- for_size (size word) (fun i results =>
    a <- substr word 0 i ;;
    b <- substr_from word (i + 1) ;;
    Ok (push_back results (a ++ b))) results ;;
  (* Transpositions *)
  results <- for_size (size_sub (size word) 1) (fun i results =>
    a <- substr word 0 i ;;
    c1 <- at_index word (i + 1) ;;
    c0 <- at_index word i ;;
    b <- substr_from word (i + 2) ;;
    Ok (push_back results (append_char (append_char a c1) c0 ++ b)))
    results ;;
  for_each alphabet (fun j results =>
    (* Alterations *)
    results <- for_size (size word) (fun i results =>
      a <- substr word 0 i ;;
      b <- substr_from word (i + 1) ;;
      Ok (push_back results (append_char a j ++ b))) results ;;
    (* Insertions *)
    for_size (size word + 1) (fun i results =>
      a <- substr word 0 i ;;
      b <- substr_from word i ;;
      Ok (push_back results (append_char a j ++ b))) results)
    results.

(** [known], lines 74-86: every result that the dictionary holds is copied,
    with the dictionary's weight, into [candidates]. *)
Definition known (dictionary : map_t) (results : list string)
    (candidates : map_t) : map_t :=
  List.fold_left (fun candidates r =>
    match find dictionary r with
    | Some value => assign candidates (fst value) (snd value)
    | None => candidates
    end) results candidates.

(** [max_element(candidates.begin(), candidates.end(), sortBySecond)->first];
    going through the iterator [end()] has no meaning. *)
Definition best (candidates : map_t) : outcome string :=
  match max_element sortBySecond candidates with
  | Some largest => Ok (fst largest)
  | None => Raise undefined_behaviour
  end.

(** The four [return] statements of [correct], by source line. *)
Inductive return_site : Type :=
| line_97   (* the word is a dictionary entry *)
| line_103  (* the best entry one edit away *)
| line_116  (* the best entry two edits away *)
| line_118  (* the empty string *).

(** The loop of lines 107-113 of [correct]: the edits of every result are
    filtered into the same [candidates]. *)
Definition second_edits (dictionary : map_t) (result : list string)
    (candidates : map_t) : outcome map_t :=
  for_each result (fun r candidates =>
    let subResult : list string := [] in
    subResult <- edits r subResult ;;
    Ok (known dictionary subResult candidates)) candidates.

(** [correct], lines 90-119, with the [return] statement that produced the
    value. *)
Definition correct_at (dictionary : map_t) (word : string)
    : outcome (return_site * string) :=
  let result : list string := [] in
  let candidates : map_t := [] in
  match find dictionary word with
  | Some _ => Ok (line_97, word)
  | None =>
      result <- edits word result ;;
      let candidates := known dictionary result candidates in
      if 0 <? map_size candidates then
        w <- best candidates ;; Ok (line_103, w)
      else
        candidates <- second_edits dictionary result candidates ;;
        if 0 <? map_size candidates then
          w <- best candidates ;; Ok (line_116, w)
        else Ok (line_118, "")
  end.

(** [correct], lines 90-119. *)
Definition correct (dictionary : map_t) (word : string) : outcome string :=
  outcome_map snd (correct_at dictionary word).

(** The body of [string_suggestion], lines 133-145, on a call with two
    arguments: the global [dictionary] as the call finds it, the word and
    the cell array [WORDS].  It gives the dictionary as the call leaves it
    and the value handed back. *)
Definition string_suggestion (dictionary : map_t) (word : string)
    (WORDS : list string) : map_t * outcome string :=
  let dictionary :=
    List.fold_left (fun dictionary w => assign dictionary w 1)
      WORDS dictionary in
  (dictionary, correct dictionary word).

(** The dictionary when the library is loaded. *)
Definition dictionary_at_load : map_t := [].

(** A caller's vocabulary of weighted terms as a dictionary: the terms are
    assigned in order, so the last weight of a term stays. *)
Definition dictionary_of (vocabulary : list (string * Z)) : map_t :=
  List.fold_left (fun dictionary e => assign dictionary (fst e) (snd e))
    vocabulary [].

(** ** What [edits] produces, in closed form

    The candidates of a word, in the order the loops of [edits] push them.
    Positions are natural numbers here. *)

Definition char_at (w : string) (i : nat) : ascii :=
  match String.get i w with
  | Some c => c
  | None => zero
  end.

Definition deletion (w : string) (i : nat) : string :=
  take i w ++ drop (S i) w.

Definition transposition (w : string) (i : nat) : string :=
  append_char (append_char (take i w) (char_at w (S i))) (char_at w i)
    ++ drop (S (S i)) w.

Definition alteration (w : string) (j : ascii) (i : nat) : string :=
  append_char (take i w) j ++ drop (S i) w.

Definition insertion (w : string) (j : ascii) (i : nat) : string :=
  append_char (take i w) j ++ drop i w.

Definition per_letter (w : string) (j : ascii) : list string :=
  (List.map (alteration w j) (List.seq 0 (String.length w))
   ++ List.map (insertion w j) (List.seq 0 (S (String.length w))))%list.

Definition edits_of (w : string) : list string :=
  (List.map (deletion w) (List.seq 0 (String.length w))
   ++ List.map (transposition w) (List.seq 0 (String.length w - 1))
   ++ List.flat_map (per_letter w) alphabet)%list.

(** The keys of a map, in the order of the walk. *)
Definition keys (m : map_t) : list string := List.map fst m.

(** The order of the entries of a [std::map]: by key, as unsigned bytes. *)
Definition key_lt (p q : string * Z) : Prop :=
  String.compare (fst p) (fst q) = Lt.

Definition sorted (m : map_t) : Prop := StronglySorted key_lt m.

(** The entries of a map are entries of the dictionary. *)
Definition from_dictionary (dictionary candidates : map_t) : Prop :=
  forall e, List.In e candidates -> find dictionary (fst e) = Some e.

(** The tie-break in the words of the specification: of the results that
    the dictionary holds, taken in the order of generation, the first one
    of greatest weight. *)
Definition first_generated_best (dictionary : map_t)
    (results : list string) : option string :=
  let survivors :=
    List.flat_map (fun r =>
      match find dictionary r with
      | Some value => [value]
      | None => []
      end) results in
  option_map fst (max_element sortBySecond survivors).

(** [c] is among the strings that [edits] produces for [word]. *)
Definition one_edit (word c : string) : Prop :=
  exists result, edits word [] = Ok result /\ List.In c result.

(** [c] is among the strings that [edits] produces for an edit of [word]. *)
Definition two_edits (word c : string) : Prop :=
  exists r, one_edit word r /\ one_edit r c.

(** A word all of whose characters are among ['a'] to ['z']. *)
Definition lowercase (w : string) : Prop :=
  forall i, (i < String.length w)%nat -> List.In (char_at w i) alphabet.

(** The global [dictionary] after a session: the calls of
    [string_suggestion], each with its word and its cell array, made in
    order since the library was loaded.  A call fills the dictionary
    (lines 138-143) before it calls [correct] (line 145), so the terms stay
    whether or not [correct] returns. *)
Definition dictionary_after (calls : list (string * list string)) : map_t :=
  List.fold_left (fun dictionary call =>
    fst (string_suggestion dictionary (fst call) (snd call)))
    calls dictionary_at_load.

(** A closed equation between values, settled by running both sides. *)
Ltac by_evaluation := vm_compute; reflexivity.

(** Membership in a list of characters or strings, by running through it. *)
Ltac in_list := simpl; repeat (first [left; reflexivity | right]).

(** ** Results *)

Section Results.

Lemma bind_Ok {A B : Type} (a : A) (k : A -> outcome B) :
  bind (Ok a) k = k a.
Proof. reflexivity. Qed.

Lemma bind_Ok_inv {A B : Type} (x : outcome A) (k : A -> outcome B) (b : B) :
  bind x k = Ok b -> exists a, x = Ok a /\ k a = Ok b.
Proof.
  destruct x as [a|f]; simpl; intro H; [now exists a | discriminate].
Qed.

End Results.

(** ** Strings and positions *)

Section Strings.

Lemma length_append (a b : string) :
  String.length (a ++ b) = (String.length a + String.length b)%nat.
Proof.
  induction a as [|c a IH]; simpl; [reflexivity | now rewrite IH].
Qed.

Lemma length_take (n : nat) (s : string) :
  String.length (take n s) = Nat.min n (String.length s).
Proof.
  revert s; induction n as [|n IH]; intros [|c s]; simpl; auto.
Qed.

Lemma length_drop (n : nat) (s : string) :
  String.length (drop n s) = (String.length s - n)%nat.
Proof.
  revert s; induction n as [|n IH]; intros [|c s]; simpl; auto.
Qed.

Lemma length_append_char (s : string) (c : ascii) :
  String.length (append_char s c) = S (String.length s).
Proof.
  unfold append_char. rewrite length_append. simpl. lia.
Qed.

(** [size_sub] is subtraction modulo [2 ^ size_bits] on [size_type]. *)
Lemma size_sub_mod (a b : Z) :
  0 <= a <= size_max -> 0 <= b <= size_max ->
  size_sub a b = (a - b) mod 2 ^ size_bits.
Proof.
  unfold size_sub, size_max, size_bits. intros Ha Hb.
  destruct (Z.ltb_spec a b) as [H|H].
  - apply Z.mod_unique with (-1); lia.
  - symmetry. apply Z.mod_small. lia.
Qed.

Lemma substr_prefix (w : string) (i : nat) :
  (i <= String.length w)%nat ->
  substr w 0 (Z.of_nat i) = Ok (take i w).
Proof.
  intro Hi. unfold substr, size.
  destruct (Z.ltb_spec (Z.of_nat (String.length w)) 0) as [H|_]; [lia|].
  simpl drop. f_equal. f_equal. lia.
Qed.

Lemma substr_from_suffix (w : string) (i : nat) :
  (i <= String.length w)%nat ->
  substr_from w (Z.of_nat i) = Ok (drop i w).
Proof.
  intro Hi. unfold substr_from, size.
  destruct (Z.ltb_spec (Z.of_nat (String.length w)) (Z.of_nat i)) as [H|_];
    [lia|].
  now rewrite Nat2Z.id.
Qed.

Lemma get_in_range (w : string) (i : nat) :
  (i < String.length w)%nat -> exists c, String.get i w = Some c.
Proof.
  revert i; induction w as [|a w IH]; intros i Hi; simpl in Hi; [lia|].
  destruct i as [|i]; simpl; [now exists a|]. apply IH. lia.
Qed.

Lemma at_index_in_range (w : string) (i : nat) :
  (i < String.length w)%nat ->
  at_index w (Z.of_nat i) = Ok (char_at w i).
Proof.
  intro Hi. unfold at_index, char_at. rewrite Nat2Z.id.
  destruct (get_in_range w i Hi) as [c ->]. reflexivity.
Qed.

End Strings.

(** ** Loops *)

Section Loops.

Lemma for_loop_pushes (f : nat -> string)
    (body : Z -> list string -> outcome (list string)) :
  forall (count k : nat) (results : list string),
    (forall i rs, (k <= i < k + count)%nat ->
       body (Z.of_nat i) rs = Ok (push_back rs (f i))) ->
    for_loop count (Z.of_nat k) body results
    = Ok (results ++ List.map f (List.seq k count))%list.
Proof.
  induction count as [|count IH]; intros k results Hbody; simpl.
  - now rewrite List.app_nil_r.
  - rewrite Hbody by lia. simpl.
    replace (Z.of_nat k + 1) with (Z.of_nat (S k)) by lia.
    rewrite IH by (intros; apply Hbody; lia).
    unfold push_back. now rewrite <- List.app_assoc.
Qed.

Lemma for_size_pushes (f : nat -> string)
    (body : Z -> list string -> outcome (list string))
    (bound : nat) (results : list string) :
  (forall i rs, (i < bound)%nat ->
     body (Z.of_nat i) rs = Ok (push_back rs (f i))) ->
  for_size (Z.of_nat bound) body results
  = Ok (results ++ List.map f (List.seq 0 bound))%list.
Proof.
  intro Hbody. unfold for_size. rewrite Nat2Z.id.
  apply (for_loop_pushes f body bound 0%nat). intros; apply Hbody; lia.
Qed.

(** A loop whose first iteration faults hands the fault on. *)
Lemma for_size_first_fault {S : Type} (body : Z -> S -> outcome S)
    (bound : Z) (s : S) (f : fault) :
  0 < bound -> body 0 s = Raise f -> for_size bound body s = Raise f.
Proof.
  intros Hb Hf. unfold for_size.
  destruct (Z.to_nat bound) as [|n] eqn:E; [lia|].
  simpl. now rewrite Hf.
Qed.

Lemma for_each_appends {A : Type} (g : A -> list string)
    (body : A -> list string -> outcome (list string)) :
  forall (v : list A) (results : list string),
    (forall x rs, List.In x v -> body x rs = Ok (rs ++ g x)%list) ->
    for_each v body results = Ok (results ++ List.flat_map g v)%list.
Proof.
  induction v as [|x v IH]; intros results Hbody; simpl.
  - now rewrite List.app_nil_r.
  - rewrite Hbody by now left. simpl.
    rewrite IH by (intros; apply Hbody; now right).
    now rewrite <- List.app_assoc.
Qed.

End Loops.

(** ** The edit generator *)

Section Edits.

Lemma size_sub_one (w : string) :
  w <> "" -> size_sub (size w) 1 = Z.of_nat (String.length w - 1).
Proof.
  intro Hw. unfold size_sub, size.
  destruct w as [|c w]; [congruence|]. simpl String.length.
  destruct (Z.ltb_spec (Z.of_nat (S (String.length w))) 1); lia.
Qed.

(** On a word that is not empty every loop of [edits] runs to its end, and
    the vector grows by the candidates of the word. *)
Lemma edits_nonempty (w : string) (results : list string) :
  w <> "" -> edits w results = Ok (results ++ edits_of w)%list.
Proof.
  intro Hw. unfold edits, edits_of.
  unfold size at 1.
  rewrite (for_size_pushes (deletion w)).
  2:{ intros i rs Hi. rewrite substr_prefix by lia.
      replace (Z.of_nat i + 1) with (Z.of_nat (S i)) by lia.
      rewrite substr_from_suffix by lia. reflexivity. }
  rewrite bind_Ok; cbv beta. rewrite size_sub_one by assumption.
  rewrite (for_size_pushes (transposition w)).
  2:{ intros i rs Hi. rewrite substr_prefix by lia.
      replace (Z.of_nat i + 1) with (Z.of_nat (S i)) by lia.
      replace (Z.of_nat i + 2) with (Z.of_nat (S (S i))) by lia.
      rewrite !at_index_in_range by lia.
      rewrite substr_from_suffix by lia. reflexivity. }
  rewrite bind_Ok; cbv beta.
  rewrite (for_each_appends (per_letter w)).
  - now rewrite <- !List.app_assoc.
  - intros j rs _. unfold per_letter, size.
    rewrite (for_size_pushes (alteration w j)).
    2:{ intros i rs' Hi. rewrite substr_prefix by lia.
        replace (Z.of_nat i + 1) with (Z.of_nat (S i)) by lia.
        rewrite substr_from_suffix by lia. reflexivity. }
    rewrite bind_Ok; cbv beta.
    replace (Z.of_nat (String.length w) + 1)
      with (Z.of_nat (S (String.length w))) by lia.
    rewrite (for_size_pushes (insertion w j)).
    2:{ intros i rs' Hi. rewrite substr_prefix by lia.
        rewrite substr_from_suffix by lia. reflexivity. }
    now rewrite <- List.app_assoc.
Qed.

(** On the empty word the bound [word.size() - 1] of the second loop wraps
    to [size_max]; the loop is entered at [i = 0], where [word[1]] is past
    the terminator and [word.substr(2)] is past the end. *)
Lemma edits_empty (results : list string) :
  edits "" results = Raise undefined_behaviour.
Proof.
  unfold edits. change (size "") with 0.
  change (for_size 0 _ results) with (Ok results).
  rewrite bind_Ok; cbv beta.
  rewrite (for_size_first_fault _ _ _ undefined_behaviour);
    reflexivity.
Qed.

End Edits.

(** ** Maps *)

Section Maps.

Lemma compare_refl (k : string) : String.compare k k = Eq.
Proof. now apply String_as_OT.cmp_eq. Qed.

Lemma compare_lt_trans (a b c : string) :
  String.compare a b = Lt -> String.compare b c = Lt ->
  String.compare a c = Lt.
Proof.
  intros Hab Hbc. apply String_as_OT.cmp_lt.
  apply String_as_OT.lt_trans with b; now apply String_as_OT.cmp_lt.
Qed.

Lemma compare_gt_lt (a b : string) :
  String.compare a b = Gt -> String.compare b a = Lt.
Proof.
  intro H. rewrite String.compare_antisym, H. reflexivity.
Qed.

Lemma find_Some (m : map_t) (k : string) (e : string * Z) :
  find m k = Some e -> fst e = k /\ List.In e m.
Proof.
  induction m as [|[k' v'] m IH]; simpl; [discriminate|].
  destruct (String.eqb_spec k' k) as [->|Hne].
  - intros [= <-]. split; [reflexivity | now left].
  - intro H. destruct (IH H) as [H1 H2]. split; [assumption | now right].
Qed.

Lemma find_None (m : map_t) (k : string) :
  find m k = None <-> ~ List.In k (keys m).
Proof.
  induction m as [|[k' v'] m IH]; simpl.
  - split; [intros _ [] | reflexivity].
  - destruct (String.eqb_spec k' k) as [->|Hne].
    + split; [discriminate | intro H; exfalso; apply H; now left].
    + rewrite IH. split; [intros H [E|I]; [congruence | now apply H]
                         | intros H I; apply H; now right].
Qed.

Lemma find_key (m : map_t) (k : string) :
  List.In k (keys m) <-> exists v, find m k = Some (k, v).
Proof.
  split.
  - intro Hin. destruct (find m k) as [[k' v]|] eqn:E.
    + destruct (find_Some _ _ _ E) as [H _]. simpl in H. subst k'.
      now exists v.
    + now apply find_None in E.
  - intros [v Hv]. destruct (find_Some _ _ _ Hv) as [_ Hin].
    unfold keys. now apply (List.in_map fst) in Hin.
Qed.

Lemma assign_inv (m : map_t) (k : string) (v : Z) (e : string * Z) :
  List.In e (assign m k v) -> e = (k, v) \/ List.In e m.
Proof.
  induction m as [|[k' v'] m IH]; simpl.
  - intros [<-|[]]. now left.
  - destruct (String.compare k k').
    + intros [<-|H]; [now left | right; now right].
    + intros [<-|H]; [now left | now right].
    + intros [<-|H]; [right; now left|].
      destruct (IH H) as [->|H']; [now left | right; now right].
Qed.

Lemma assign_new (m : map_t) (k : string) (v : Z) :
  List.In (k, v) (assign m k v).
Proof.
  induction m as [|[k' v'] m IH]; simpl; [now left|].
  destruct (String.compare k k'); [now left | now left | now right].
Qed.

Lemma assign_entry (m : map_t) (e : string * Z) :
  List.In e (assign m (fst e) (snd e)).
Proof. destruct e as [k v]. apply assign_new. Qed.

Lemma assign_old (m : map_t) (k : string) (v : Z) (e : string * Z) :
  List.In e m -> fst e <> k -> List.In e (assign m k v).
Proof.
  induction m as [|[k' v'] m IH]; simpl; [intros []|].
  intros [<-|Hin] Hne.
  - destruct (String.compare k k') eqn:E.
    + apply String.compare_eq_iff in E. simpl in Hne. congruence.
    + right; now left.
    + now left.
  - destruct (String.compare k k'); [now right | right; now right|].
    right. now apply IH.
Qed.

Lemma assign_sorted (m : map_t) (k : string) (v : Z) :
  sorted m -> sorted (assign m k v).
Proof.
  unfold sorted. induction m as [|[k' v'] m IH]; simpl; intro Hs.
  - constructor; constructor.
  - inversion Hs as [|? ? Hm Hall]; subst.
    destruct (String.compare k k') eqn:E.
    + apply String.compare_eq_iff in E. subst k'. now constructor.
    + constructor; [assumption|]. constructor; [exact E|].
      rewrite List.Forall_forall in Hall |- *. intros e He.
      unfold key_lt in *. simpl in *.
      apply compare_lt_trans with k'; [assumption | now apply Hall].
    + constructor; [now apply IH|].
      rewrite List.Forall_forall in Hall |- *. intros e He.
      destruct (assign_inv _ _ _ _ He) as [->|He'].
      * unfold key_lt. simpl. now apply compare_gt_lt.
      * now apply Hall.
Qed.

Lemma sorted_suffix (l1 l2 : map_t) : sorted (l1 ++ l2)%list -> sorted l2.
Proof.
  unfold sorted. induction l1 as [|e l1 IH]; simpl; [trivial|].
  intro Hs. inversion Hs; subst. now apply IH.
Qed.

Lemma assign_keeps_keys (m : map_t) (k k' : string) (v : Z) :
  List.In k (keys m) -> List.In k (keys (assign m k' v)).
Proof.
  intro Hin. apply find_key in Hin as [x Hx].
  destruct (find_Some _ _ _ Hx) as [_ Hin].
  destruct (string_dec k k') as [->|Hne].
  - apply (List.in_map fst _ (k', v)), assign_new.
  - apply (List.in_map fst _ (k, x)), assign_old; assumption.
Qed.

Lemma assign_all_keeps_keys (WORDS : list string) :
  forall (m : map_t) (k : string),
    List.In k (keys m) ->
    List.In k (keys (List.fold_left (fun d w => assign d w 1) WORDS m)).
Proof.
  induction WORDS as [|w WORDS IH]; intros m k Hin; [exact Hin|].
  simpl. apply IH. now apply assign_keeps_keys.
Qed.

Lemma map_size_positive (m : map_t) :
  (0 <? map_size m) = true <-> m <> [].
Proof.
  unfold map_size. destruct m; simpl; split; intro H;
    try congruence; try discriminate; reflexivity || lia.
Qed.

Lemma map_size_zero (m : map_t) :
  (0 <? map_size m) = false <-> m = [].
Proof.
  unfold map_size. destruct m; simpl; split; intro H;
    try congruence; try discriminate; reflexivity || lia.
Qed.

End Maps.

(** ** The selection *)

Section Selection.

(** The walk of [max_element] settles on the first entry of greatest
    weight: the entries before it weigh strictly less, those after it weigh
    no more. *)
Lemma max_element_from_first (rest : list (string * Z)) :
  forall (before : list (string * Z)) (largest : string * Z)
         (skipped : list (string * Z)),
    (forall e, List.In e before -> snd e < snd largest) ->
    (forall e, List.In e skipped -> snd e <= snd largest) ->
    exists l1 l2,
      (before ++ largest :: skipped ++ rest
       = l1 ++ max_element_from sortBySecond largest rest :: l2)%list
      /\ (forall e, List.In e l1 ->
            snd e < snd (max_element_from sortBySecond largest rest))
      /\ (forall e, List.In e l2 ->
            snd e <= snd (max_element_from sortBySecond largest rest)).
Proof.
  induction rest as [|x rest IH]; intros before largest skipped Hb Hs.
  - exists before, skipped. simpl. rewrite List.app_nil_r. auto.
  - simpl. destruct (sortBySecond largest x) eqn:Hc; unfold sortBySecond in Hc.
    + apply Z.ltb_lt in Hc. destruct (IH (before ++ largest :: skipped)%list x []) as
        (l1 & l2 & E & H1 & H2).
      * intros e He. apply List.in_app_or in He as [He|[<-|He]].
        -- specialize (Hb e He). lia.
        -- assumption.
        -- specialize (Hs e He). lia.
      * intros e [].
      * exists l1, l2. split; [|now split].
        rewrite <- E. simpl. now rewrite <- List.app_assoc.
    + apply Z.ltb_ge in Hc.
      destruct (IH before largest (skipped ++ [x])%list) as
        (l1 & l2 & E & H1 & H2).
      * assumption.
      * intros e He. apply List.in_app_or in He as [He|[<-|[]]].
        -- now apply Hs.
        -- assumption.
      * exists l1, l2. split; [|now split].
        rewrite <- E. now rewrite <- List.app_assoc.
Qed.

Lemma best_first (candidates : map_t) :
  candidates <> [] ->
  exists l1 largest l2,
    candidates = (l1 ++ largest :: l2)%list
    /\ best candidates = Ok (fst largest)
    /\ (forall e, List.In e l1 -> snd e < snd largest)
    /\ (forall e, List.In e l2 -> snd e <= snd largest).
Proof.
  destruct candidates as [|x rest]; [congruence|]. intros _.
  destruct (max_element_from_first rest [] x []) as (l1 & l2 & E & H1 & H2);
    try (intros e []).
  exists l1, (max_element_from sortBySecond x rest), l2.
  simpl in E. now repeat split.
Qed.

(** In a map the first entry of greatest weight has the least key among
    the entries of that weight. *)
Lemma best_least_key (candidates : map_t) :
  sorted candidates -> candidates <> [] ->
  exists v x,
    best candidates = Ok v
    /\ List.In (v, x) candidates
    /\ (forall e, List.In e candidates -> snd e <= x)
    /\ (forall e, List.In e candidates -> snd e = x ->
          String.leb v (fst e) = true).
Proof.
  intros Hs Hne.
  destruct (best_first candidates Hne) as (l1 & [v x] & l2 & E & Hb & H1 & H2).
  exists v, x. simpl in *. subst candidates.
  split; [assumption|]. split; [apply List.in_elt|]. split.
  - intros e He. apply List.in_app_or in He as [He|[<-|He]].
    + specialize (H1 e He). lia.
    + simpl. lia.
    + now apply H2.
  - intros e He Hx. apply List.in_app_or in He as [He|[<-|He]].
    + specialize (H1 e He). lia.
    + simpl. unfold String.leb. now rewrite compare_refl.
    + apply sorted_suffix in Hs. unfold sorted in Hs.
      inversion Hs as [|? ? _ Hall]; subst.
      rewrite List.Forall_forall in Hall. specialize (Hall e He).
      unfold key_lt in Hall. simpl in Hall.
      unfold String.leb. now rewrite Hall.
Qed.

End Selection.

(** ** The filter *)

Section Known.

Variable dictionary : map_t.

Lemma known_cons (r : string) (results : list string) (candidates : map_t) :
  known dictionary (r :: results) candidates
  = known dictionary results
      (match find dictionary r with
       | Some value => assign candidates (fst value) (snd value)
       | None => candidates
       end).
Proof. reflexivity. Qed.

Lemma known_sorted (results : list string) :
  forall candidates, sorted candidates ->
    sorted (known dictionary results candidates).
Proof.
  induction results as [|r results IH]; intros candidates Hs; [exact Hs|].
  rewrite known_cons. apply IH.
  destruct (find dictionary r); [now apply assign_sorted | assumption].
Qed.

(** Nothing enters a map but what the dictionary holds among the results. *)
Lemma known_inv (results : list string) :
  forall candidates e,
    List.In e (known dictionary results candidates) ->
    List.In e candidates
    \/ (List.In (fst e) results /\ find dictionary (fst e) = Some e).
Proof.
  induction results as [|r results IH]; intros candidates e He; [now left|].
  rewrite known_cons in He. apply IH in He as [He|[Hin Hf]].
  - destruct (find dictionary r) as [value|] eqn:E; [|now left].
    apply assign_inv in He as [->|He]; [|now left].
    right. destruct (find_Some _ _ _ E) as [Hk _].
    rewrite <- surjective_pairing. rewrite Hk.
    split; [now left | assumption].
  - right. split; [now right | assumption].
Qed.

Lemma known_from_dictionary (results : list string) (candidates : map_t) :
  from_dictionary dictionary candidates ->
  from_dictionary dictionary (known dictionary results candidates).
Proof.
  intros Hc e He. apply known_inv in He as [He|[_ Hf]]; [now apply Hc | exact Hf].
Qed.

(** What a map holds stays, as long as the map agrees with the
    dictionary. *)
Lemma known_keeps (results : list string) :
  forall candidates e,
    from_dictionary dictionary candidates ->
    List.In e candidates ->
    List.In e (known dictionary results candidates).
Proof.
  induction results as [|r results IH]; intros candidates e Hc He; [exact He|].
  rewrite known_cons.
  destruct (find dictionary r) as [value|] eqn:E; [|now apply IH].
  destruct (find_Some _ _ _ E) as [Hk _].
  apply IH.
  - intros e' He'. apply assign_inv in He' as [->|He']; [|now apply Hc].
    simpl. rewrite <- surjective_pairing. now rewrite Hk.
  - destruct (String.eqb_spec (fst e) (fst value)) as [Heq|Hne].
    + assert (e = value) as ->.
      { specialize (Hc e He). rewrite Heq, Hk, E in Hc. congruence. }
      apply assign_entry.
    + now apply assign_old.
Qed.

(** Every result that the dictionary holds is in the map afterwards. *)
Lemma known_finds (results : list string) :
  forall candidates r e,
    from_dictionary dictionary candidates ->
    List.In r results -> find dictionary r = Some e ->
    List.In e (known dictionary results candidates).
Proof.
  induction results as [|r' results IH]; intros candidates r e Hc Hin Hf;
    [destruct Hin|]. destruct Hin as [<-|Hin].
  - rewrite known_cons, Hf. destruct (find_Some _ _ _ Hf) as [Hk _].
    apply known_keeps.
    + intros e' He'. apply assign_inv in He' as [->|He']; [|now apply Hc].
      simpl. rewrite <- surjective_pairing. now rewrite Hk.
    + apply assign_entry.
  - rewrite known_cons. apply IH with r; try assumption.
    destruct (find dictionary r') as [value|] eqn:E; [|assumption].
    destruct (find_Some _ _ _ E) as [Hk _].
    intros e' He'. apply assign_inv in He' as [->|He']; [|now apply Hc].
    simpl. rewrite <- surjective_pairing. now rewrite Hk.
Qed.

Lemma known_empty (results : list string) :
  known dictionary results [] = [] <->
  (forall r, List.In r results -> find dictionary r = None).
Proof.
  split.
  - intros E r Hin. destruct (find dictionary r) as [e|] eqn:Hf; [|reflexivity].
    assert (List.In e (known dictionary results [])) as He
      by (apply known_finds with r; [intros ? []| |]; assumption).
    rewrite E in He. destruct He.
  - intro Hnone. destruct (known dictionary results []) as [|e m] eqn:E;
      [reflexivity|].
    assert (List.In e (known dictionary results [])) as He
      by (rewrite E; now left).
    apply known_inv in He as [[]|[Hin Hf]].
    rewrite (Hnone _ Hin) in Hf. discriminate.
Qed.

End Known.

(** ** The corrector *)

Section Corrector.

Variable dictionary : map_t.

Lemma best_nonempty (candidates : map_t) :
  candidates <> [] -> exists v, best candidates = Ok v.
Proof.
  intro Hne. destruct (best_first candidates Hne) as (_ & e & _ & _ & H & _).
  now exists (fst e).
Qed.

Lemma best_entry (candidates : map_t) (v : string) :
  best candidates = Ok v -> exists x, List.In (v, x) candidates.
Proof.
  intro Hb. destruct candidates as [|e m] eqn:E; [discriminate|].
  rewrite <- E in *. assert (candidates <> []) as Hne by congruence.
  destruct (best_first candidates Hne) as (l1 & [k x] & l2 & -> & H & _).
  rewrite H in Hb. injection Hb as <-. exists x. apply List.in_elt.
Qed.

Lemma known_app (r1 r2 : list string) (candidates : map_t) :
  known dictionary (r1 ++ r2) candidates
  = known dictionary r2 (known dictionary r1 candidates).
Proof. unfold known. apply List.fold_left_app. Qed.

Lemma second_edits_cons (r : string) (result : list string)
    (candidates : map_t) :
  second_edits dictionary (r :: result) candidates
  = (subResult <- edits r [] ;;
     second_edits dictionary result (known dictionary subResult candidates)).
Proof.
  unfold second_edits. simpl for_each.
  destruct (edits r []); reflexivity.
Qed.

(** The second pass faults as soon as a result is the empty word. *)
Lemma second_edits_empty_word (result : list string) :
  forall candidates, List.In "" result ->
    second_edits dictionary result candidates = Raise undefined_behaviour.
Proof.
  induction result as [|r result IH]; intros candidates Hin; [destruct Hin|].
  rewrite second_edits_cons.
  destruct (string_dec r "") as [->|Hr].
  - now rewrite edits_empty.
  - rewrite edits_nonempty by assumption. rewrite bind_Ok.
    apply IH. destruct Hin as [E|Hin]; [congruence | assumption].
Qed.

(** Without the empty word among the results it runs to its end. *)
Lemma second_edits_nonempty (result : list string) :
  forall candidates, ~ List.In "" result ->
    second_edits dictionary result candidates
    = Ok (known dictionary (List.flat_map edits_of result) candidates).
Proof.
  induction result as [|r result IH]; intros candidates Hin; [reflexivity|].
  rewrite second_edits_cons.
  rewrite edits_nonempty by (intros ->; apply Hin; now left).
  rewrite bind_Ok, IH by (intro H; apply Hin; now right).
  simpl. now rewrite known_app.
Qed.

(** Whatever the second pass adds is a dictionary entry among the edits of
    a result. *)
Lemma second_edits_inv (result : list string) :
  forall candidates candidates' e,
    second_edits dictionary result candidates = Ok candidates' ->
    List.In e candidates' ->
    List.In e candidates
    \/ exists r subResult,
         List.In r result /\ edits r [] = Ok subResult
         /\ List.In (fst e) subResult /\ find dictionary (fst e) = Some e.
Proof.
  induction result as [|r result IH]; intros candidates candidates' e H He.
  - injection H as <-. now left.
  - rewrite second_edits_cons in H.
    apply bind_Ok_inv in H as (subResult & Hs & H).
    destruct (IH _ _ _ H He) as [Hk|(r' & s' & Hr' & Hs' & Hin & Hf)].
    + apply known_inv in Hk as [Hk|[Hin Hf]]; [now left|].
      right. exists r, subResult. repeat split; try assumption. now left.
    + right. exists r', s'. repeat split; try assumption. now right.
Qed.

(** The [return] statement taken and what led to it. *)
Lemma correct_at_inv (word : string) (site : return_site) (v : string) :
  correct_at dictionary word = Ok (site, v) ->
  match site with
  | line_97 => v = word /\ List.In word (keys dictionary)
  | line_103 =>
      find dictionary word = None
      /\ exists result,
           edits word [] = Ok result
           /\ known dictionary result [] <> []
           /\ best (known dictionary result []) = Ok v
  | line_116 =>
      find dictionary word = None
      /\ exists result candidates,
           edits word [] = Ok result
           /\ known dictionary result [] = []
           /\ second_edits dictionary result [] = Ok candidates
           /\ candidates <> []
           /\ best candidates = Ok v
  | line_118 =>
      find dictionary word = None
      /\ exists result,
           edits word [] = Ok result
           /\ known dictionary result [] = []
           /\ second_edits dictionary result [] = Ok []
           /\ v = ""
  end.
Proof.
  unfold correct_at.
  destruct (find dictionary word) as [e|] eqn:Hf.
  - intros [= <- <-]. split; [reflexivity|].
    destruct (find_Some _ _ _ Hf) as [Hk Hin].
    unfold keys. rewrite <- Hk. now apply List.in_map.
  - intro H. apply bind_Ok_inv in H as (result & Hr & H).
    destruct (0 <? map_size (known dictionary result [])) eqn:E1.
    + apply bind_Ok_inv in H as (v' & Hb & [= <- <-]).
      split; [reflexivity|]. exists result.
      apply map_size_positive in E1. now repeat split.
    + apply map_size_zero in E1. rewrite E1 in H.
      apply bind_Ok_inv in H as (candidates & Hc & H).
      destruct (0 <? map_size candidates) eqn:E2.
      * apply bind_Ok_inv in H as (v' & Hb & [= <- <-]).
        split; [reflexivity|]. exists result, candidates.
        apply map_size_positive in E2. now repeat split.
      * injection H as <- <-. apply map_size_zero in E2. subst candidates.
        split; [reflexivity|]. exists result. now repeat split.
Qed.

Lemma correct_at_exact (word : string) :
  List.In word (keys dictionary) ->
  correct_at dictionary word = Ok (line_97, word).
Proof.
  intro Hin. apply find_key in Hin as [v Hv].
  unfold correct_at. now rewrite Hv.
Qed.

Lemma correct_at_one_edit (word : string) (result : list string) :
  find dictionary word = None ->
  edits word [] = Ok result ->
  known dictionary result [] <> [] ->
  correct_at dictionary word
  = (w <- best (known dictionary result []) ;; Ok (line_103, w)).
Proof.
  intros Hf Hr Hk. unfold correct_at. rewrite Hf, Hr, bind_Ok.
  apply map_size_positive in Hk. now rewrite Hk.
Qed.

Lemma correct_at_two_edits (word : string) (result : list string) :
  find dictionary word = None ->
  edits word [] = Ok result ->
  known dictionary result [] = [] ->
  correct_at dictionary word
  = (candidates <- second_edits dictionary result [] ;;
     if 0 <? map_size candidates
     then w <- best candidates ;; Ok (line_116, w)
     else Ok (line_118, "")).
Proof.
  intros Hf Hr Hk. unfold correct_at. rewrite Hf, Hr, bind_Ok, Hk.
  reflexivity.
Qed.

Lemma correct_site (word v : string) :
  correct dictionary word = Ok v <->
  exists site, correct_at dictionary word = Ok (site, v).
Proof.
  unfold correct, outcome_map. split.
  - intro H. apply bind_Ok_inv in H as ([site v'] & H & [= <-]).
    now exists site.
  - intros [site H]. now rewrite H.
Qed.

End Corrector.

(** ** When the corrector returns *)

Section Returning.

Variable dictionary : map_t.

Lemma edits_of_lengths (w c : string) :
  List.In c (edits_of w) -> (String.length w - 1 <= String.length c)%nat.
Proof.
  unfold edits_of. intro H.
  apply List.in_app_or in H as [H|H]; [|apply List.in_app_or in H as [H|H]].
  - apply List.in_map_iff in H as (i & <- & Hi). apply List.in_seq in Hi.
    unfold deletion. rewrite length_append, length_take, length_drop. lia.
  - apply List.in_map_iff in H as (i & <- & Hi). apply List.in_seq in Hi.
    unfold transposition.
    rewrite length_append, !length_append_char, length_take, length_drop.
    lia.
  - apply List.in_flat_map in H as (j & _ & H). unfold per_letter in H.
    apply List.in_app_or in H as [H|H];
      apply List.in_map_iff in H as (i & <- & Hi); apply List.in_seq in Hi;
      unfold alteration, insertion;
      rewrite length_append, length_append_char, length_take, length_drop;
      lia.
Qed.

Lemma edits_of_long_word (w : string) :
  (2 <= String.length w)%nat -> ~ List.In "" (edits_of w).
Proof.
  intros Hw Hin. apply edits_of_lengths in Hin. simpl in Hin. lia.
Qed.

Lemma edits_of_one_letter (c : ascii) : List.In "" (edits_of (String c "")).
Proof. now left. Qed.

Lemma edits_Ok (word : string) (result : list string) :
  edits word [] = Ok result -> word <> "" /\ result = edits_of word.
Proof.
  destruct (string_dec word "") as [->|Hw].
  - now rewrite edits_empty.
  - rewrite edits_nonempty by assumption. intros [= <-]. now split.
Qed.

(** The second pass comes to its end only for a word of two characters or
    more. *)
Lemma second_edits_Ok (word : string) (result : list string)
    (candidates candidates' : map_t) :
  edits word [] = Ok result ->
  second_edits dictionary result candidates = Ok candidates' ->
  (2 <= String.length word)%nat.
Proof.
  intros He Hs. apply edits_Ok in He as [Hw ->].
  destruct word as [|c [|c' w]]; [congruence| |simpl; lia].
  rewrite second_edits_empty_word in Hs by apply edits_of_one_letter.
  discriminate.
Qed.

Lemma is_ok_correct (word : string) :
  is_ok (correct dictionary word) = is_ok (correct_at dictionary word).
Proof.
  unfold correct, outcome_map. now destruct (correct_at dictionary word).
Qed.

Lemma known_survivor (result : list string) (c : string) :
  List.In c result -> List.In c (keys dictionary) ->
  known dictionary result [] <> [].
Proof.
  intros Hin Hk E. apply find_key in Hk as [x Hx].
  rewrite (proj1 (known_empty dictionary result) E c Hin) in Hx. discriminate.
Qed.

Lemma correct_at_one_edit_returns (word : string) (result : list string) :
  find dictionary word = None ->
  edits word [] = Ok result ->
  known dictionary result [] <> [] ->
  exists v, correct_at dictionary word = Ok (line_103, v).
Proof.
  intros Hf He Hk. rewrite (correct_at_one_edit _ _ _ Hf He Hk).
  destruct (best_nonempty _ Hk) as [v ->]. now exists v.
Qed.

Lemma correct_at_long_word_returns (word : string) :
  (2 <= String.length word)%nat ->
  is_ok (correct_at dictionary word) = true.
Proof.
  intro Hw. destruct (find dictionary word) as [e|] eqn:Hf.
  - unfold correct_at. now rewrite Hf.
  - assert (word <> "") as Hne by (intros ->; simpl in Hw; lia).
    pose proof (edits_nonempty word [] Hne) as He. simpl in He.
    destruct (known dictionary (edits_of word) []) as [|e m] eqn:Hk.
    + rewrite (correct_at_two_edits _ _ _ Hf He Hk).
      rewrite second_edits_nonempty by now apply edits_of_long_word.
      rewrite bind_Ok.
      destruct (0 <? map_size _) eqn:E; [|reflexivity].
      apply map_size_positive in E.
      destruct (best_nonempty _ E) as [v ->]. reflexivity.
    + destruct (correct_at_one_edit_returns word (edits_of word) Hf He)
        as [v ->]; [rewrite Hk; discriminate | reflexivity].
Qed.

End Returning.

(** ** What the corrector selects *)

Section Selecting.

Variable dictionary : map_t.

Lemma In_by_eqb (c : string) (l : list string) :
  List.existsb (String.eqb c) l = true -> List.In c l.
Proof.
  intro H. apply List.existsb_exists in H as (x & Hin & E).
  apply String.eqb_eq in E. now subst.
Qed.

Lemma sorted_nil : sorted [].
Proof. constructor. Qed.

Lemma from_dictionary_nil : from_dictionary dictionary [].
Proof. intros e []. Qed.

(** The first pass: the selection among the edits of the word that the
    dictionary holds. *)
Lemma first_pass_selection (word : string) (result : list string)
    (c : string) :
  find dictionary word = None ->
  edits word [] = Ok result ->
  List.In c result -> List.In c (keys dictionary) ->
  exists v x,
    correct_at dictionary word = Ok (line_103, v)
    /\ List.In v result
    /\ find dictionary v = Some (v, x)
    /\ (forall c' x', List.In c' result ->
          find dictionary c' = Some (c', x') ->
          x' <= x /\ (x' = x -> String.leb v c' = true)).
Proof.
  intros Hf He Hin Hk.
  pose proof (known_survivor dictionary result c Hin Hk) as Hne.
  destruct (best_least_key (known dictionary result []))
    as (v & x & Hb & Hv & Hmax & Hleast);
    [apply known_sorted, sorted_nil | assumption |].
  exists v, x. rewrite (correct_at_one_edit _ _ _ Hf He Hne), Hb.
  split; [reflexivity|].
  apply known_inv in Hv as [[]|[Hv Hfv]]. simpl in Hv, Hfv.
  split; [assumption|]. split; [assumption|].
  intros c' x' Hin' Hf'.
  assert (List.In (c', x') (known dictionary result [])) as Hc'
    by (apply known_finds with c';
        [apply from_dictionary_nil | assumption | assumption]).
  split; [apply (Hmax _ Hc') | intro E; apply (Hleast _ Hc' E)].
Qed.

(** The second pass: it starts from an empty map, and the selection is
    among the edits of the edits that the dictionary holds. *)
Lemma second_pass_selection (word : string) (v : string) :
  correct_at dictionary word = Ok (line_116, v) ->
  exists result candidates x,
    edits word [] = Ok result
    /\ known dictionary result [] = []
    /\ second_edits dictionary result [] = Ok candidates
    /\ List.In (v, x) candidates
    /\ find dictionary v = Some (v, x)
    /\ two_edits word v.
Proof.
  intro H. apply correct_at_inv in H
    as (_ & result & candidates & He & Hk & Hs & _ & Hb).
  apply best_entry in Hb as [x Hx].
  exists result, candidates, x. repeat split; try assumption.
  - destruct (second_edits_inv _ _ _ _ _ Hs Hx)
      as [[]|(r & s' & Hr & Hs' & Hin & Hf)]. exact Hf.
  - destruct (second_edits_inv _ _ _ _ _ Hs Hx)
      as [[]|(r & s' & Hr & Hs' & Hin & Hf)].
    exists r. split; [now exists result | now exists s'].
Qed.

Lemma second_edits_sorted (result : list string) :
  forall candidates candidates',
    second_edits dictionary result candidates = Ok candidates' ->
    sorted candidates -> sorted candidates'.
Proof.
  induction result as [|r result IH]; intros candidates candidates' H Hs.
  - now injection H as <-.
  - rewrite second_edits_cons in H.
    apply bind_Ok_inv in H as (subResult & _ & H).
    apply (IH _ _ H). now apply known_sorted.
Qed.

Lemma second_edits_keeps (result : list string) :
  forall candidates candidates' e,
    from_dictionary dictionary candidates ->
    second_edits dictionary result candidates = Ok candidates' ->
    List.In e candidates -> List.In e candidates'.
Proof.
  induction result as [|r result IH]; intros candidates candidates' e Hc H He.
  - now injection H as <-.
  - rewrite second_edits_cons in H.
    apply bind_Ok_inv in H as (subResult & _ & H).
    apply (IH (known dictionary subResult candidates)); try assumption.
    + now apply known_from_dictionary.
    + now apply known_keeps.
Qed.

Lemma second_edits_finds (result : list string) :
  forall candidates candidates' r subResult c e,
    from_dictionary dictionary candidates ->
    second_edits dictionary result candidates = Ok candidates' ->
    List.In r result -> edits r [] = Ok subResult ->
    List.In c subResult -> find dictionary c = Some e ->
    List.In e candidates'.
Proof.
  induction result as [|r' result IH];
    intros candidates candidates' r subResult c e Hc H Hr Hs Hin Hf;
    [destruct Hr|].
  rewrite second_edits_cons in H.
  apply bind_Ok_inv in H as (subResult' & Hs' & H).
  destruct Hr as [->|Hr].
  - rewrite Hs in Hs'. injection Hs' as <-.
    apply (second_edits_keeps result (known dictionary subResult candidates));
      try assumption.
    + now apply known_from_dictionary.
    + now apply known_finds with c.
  - apply (IH (known dictionary subResult' candidates) candidates'
              r subResult c e); try assumption.
    now apply known_from_dictionary.
Qed.

(** The second pass on a word of two characters or more: the selection
    among the edits of the edits that the dictionary holds. *)
Lemma second_pass_least_key (word : string) (result : list string)
    (c : string) :
  (2 <= String.length word)%nat ->
  find dictionary word = None ->
  edits word [] = Ok result ->
  known dictionary result [] = [] ->
  two_edits word c -> List.In c (keys dictionary) ->
  exists v x,
    correct_at dictionary word = Ok (line_116, v)
    /\ two_edits word v
    /\ find dictionary v = Some (v, x)
    /\ (forall c' x', two_edits word c' ->
          find dictionary c' = Some (c', x') ->
          x' <= x /\ (x' = x -> String.leb v c' = true)).
Proof.
  intros Hw Hf He Hk Hc Hck.
  destruct (edits_Ok _ _ He) as [Hne ->].
  pose proof (second_edits_nonempty dictionary (edits_of word) []
                (edits_of_long_word word Hw)) as Hs.
  set (candidates := known dictionary _ []) in Hs.
  assert (forall c' x', two_edits word c' ->
            find dictionary c' = Some (c', x') ->
            List.In (c', x') candidates) as Hall.
  { intros c' x' (r & (result' & He' & Hr) & (sub & Hsub & Hin)) Hf'.
    rewrite He in He'. injection He' as <-.
    now apply (second_edits_finds _ _ _ _ _ _ _
                 (from_dictionary_nil) Hs Hr Hsub Hin Hf'). }
  assert (candidates <> []) as Hcne.
  { apply find_key in Hck as [x Hx]. intro E.
    specialize (Hall c x Hc Hx). rewrite E in Hall. destruct Hall. }
  destruct (best_least_key candidates)
    as (v & x & Hb & Hv & Hmax & Hleast).
  { apply (second_edits_sorted _ _ _ Hs). apply sorted_nil. }
  { assumption. }
  exists v, x. rewrite (correct_at_two_edits _ _ _ Hf He Hk), Hs, bind_Ok.
  rewrite (proj2 (map_size_positive candidates) Hcne), Hb, bind_Ok.
  split; [reflexivity|].
  destruct (second_edits_inv _ _ _ _ _ Hs Hv)
    as [[]|(r & s' & Hr & Hs' & Hin & Hfv)]. simpl in Hin, Hfv.
  split; [exists r; split; [now exists (edits_of word) | now exists s']|].
  split; [assumption|].
  intros c' x' Hc' Hf'. specialize (Hall c' x' Hc' Hf').
  split; [apply (Hmax _ Hall) | intro E; apply (Hleast _ Hall E)].
Qed.

End Selecting.

(** ** The size of the output of [edits] *)

Section Counting.

Lemma per_letter_length (w : string) (j : ascii) :
  List.length (per_letter w j) = (2 * String.length w + 1)%nat.
Proof.
  unfold per_letter.
  rewrite List.length_app, !List.length_map, !List.length_seq. lia.
Qed.

Lemma edits_of_length (w : string) :
  List.length (edits_of w)
  = (String.length w + (String.length w - 1)
     + 26 * (2 * String.length w + 1))%nat.
Proof.
  unfold edits_of.
  rewrite !List.length_app, !List.length_map, !List.length_seq.
  rewrite List.flat_map_constant_length
    with (c := (2 * String.length w + 1)%nat).
  - change (List.length alphabet) with 26%nat. lia.
  - intros j _. apply per_letter_length.
Qed.

End Counting.

(** * The claims *)

(** C2.  The claim says that [edits] produces, for the empty word, the 26
    insertions and nothing else, and that it returns for every word.  The
    program does not: on the empty word the bound [word.size() - 1] of the
    transposition loop wraps to [size_max], the loop is entered, and its
    first iteration reads [word[1]] and calls [word.substr(2)], both past
    the end of the word, so the call does not return a sequence.  For a word
    of one character the bound is 0, the transposition loop adds nothing, and
    the output is the deletion followed by the alterations and insertions. *)
Theorem edits_empty_word_faults :
  size_sub (size "") 1 = size_max
  /\ at_index "" 1 = Raise undefined_behaviour
  /\ substr_from "" 2 = Raise out_of_range
  /\ (forall results, edits "" results = Raise undefined_behaviour)
  /\ (forall c results,
        edits (String c "") results
        = Ok (results
              ++ "" :: List.flat_map (per_letter (String c "")) alphabet)%list).
Proof.
  split; [reflexivity|]. split; [reflexivity|]. split; [reflexivity|].
  split.
  - apply edits_empty.
  - intros c results. rewrite edits_nonempty by discriminate. reflexivity.
Qed.

(** C8.  For every word that is not empty, one call of [edits] appends
    [2 * size - 1 + 26 * (2 * size + 1)] strings to the vector, 187 of them
    for ["cat"].  For the empty word the claim's count is 26, and the
    program's call ends in a fault instead of a sequence. *)
Theorem edits_count :
  (forall c w results,
     exists r,
       edits (String c w) results = Ok (results ++ r)%list
       /\ Z.of_nat (List.length r)
          = 2 * size (String c w) - 1 + 26 * (2 * size (String c w) + 1))
  /\ outcome_map (@List.length string) (edits "cat" []) = Ok 187%nat
  /\ is_ok (edits "" []) = false.
Proof.
  split; [|split].
  - intros c w results. exists (edits_of (String c w)).
    split; [apply edits_nonempty; discriminate|].
    rewrite edits_of_length. unfold size. simpl String.length. lia.
  - reflexivity.
  - now rewrite edits_empty.
Qed.

(** C3.  A word that is a key of the dictionary is returned as it is, by the
    [return] of line 97, before any edit is generated, whatever the weights
    in the dictionary. *)
Theorem correct_exact_match (dictionary : map_t) (word : string) :
  List.In word (keys dictionary) ->
  correct_at dictionary word = Ok (line_97, word)
  /\ correct dictionary word = Ok word.
Proof.
  intro Hin. unfold correct.
  rewrite (correct_at_exact dictionary word Hin). now split.
Qed.

Lemma correct_exact_match_witness :
  List.In "cat" (keys [("cat", 1); ("cot", 9)])
  /\ correct [("cat", 1); ("cot", 9)] "cat" = Ok "cat".
Proof.
  split; [now left|].
  apply (correct_exact_match [("cat", 1); ("cot", 9)] "cat"). now left.
Defined.

(** C10.  With the dictionary that holds only the empty string, the word
    ["a"] has the empty string among its edits (its deletion), and [correct]
    returns it from line 103 as the correction; the word ["abc"] has no
    correction, and [correct] returns the empty string from line 118.  The
    caller receives the same value in both cases. *)
Theorem empty_string_is_ambiguous :
  (exists result, edits "a" [] = Ok ("" :: result))
  /\ correct_at [("", 1)] "a" = Ok (line_103, "")
  /\ correct_at [("", 1)] "abc" = Ok (line_118, "")
  /\ correct [("", 1)] "a" = Ok ""
  /\ correct [("", 1)] "abc" = Ok "".
Proof.
  split.
  - rewrite edits_nonempty by discriminate. eexists. reflexivity.
  - split; [by_evaluation|]. split; [by_evaluation|].
    split; by_evaluation.
Qed.

(** C7.  The claim says that the index of a call holds exactly the terms of
    that call.  The global [dictionary] is never cleared, and a call leaves
    in it every key it found there: after a first call with the term
    ["cat"], a second call with the only term ["dog"] corrects ["cot"] to
    ["cat"], a term the second caller did not supply, whereas the same call
    on the dictionary as it is at load gives ["dog"]. *)
Theorem dictionary_keeps_earlier_terms :
  (let first_call := string_suggestion dictionary_at_load "cat" ["cat"] in
   let second_call := string_suggestion (fst first_call) "cot" ["dog"] in
   fst first_call = [("cat", 1)]
   /\ fst second_call = [("cat", 1); ("dog", 1)]
   /\ snd second_call = Ok "cat"
   /\ snd (string_suggestion dictionary_at_load "cot" ["dog"]) = Ok "dog")
  /\ (forall dictionary word WORDS k,
        List.In k (keys dictionary) ->
        List.In k (keys (fst (string_suggestion dictionary word WORDS)))).
Proof.
  split.
  - cbv zeta.
    split; [by_evaluation|]. split; [by_evaluation|]. split; by_evaluation.
  - intros dictionary word WORDS k Hin. unfold string_suggestion. simpl fst.
    now apply assign_all_keeps_keys.
Qed.

Lemma dictionary_keeps_earlier_terms_witness :
  List.In "cat" (keys [("cat", 1)])
  /\ List.In "cat" (keys (fst (string_suggestion [("cat", 1)] "cot" ["dog"]))).
Proof.
  split; [now left|].
  apply (proj2 dictionary_keeps_earlier_terms [("cat", 1)] "cot" ["dog"] "cat").
  now left.
Defined.

(** C1.  The claim says that [correct] returns for every word and every
    dictionary.  The program does not: with an empty dictionary the empty
    word reaches [edits], which faults on it (the wrapped bound of the
    transposition loop), and a word of one character reaches the second
    pass, whose first result is the empty word.  [correct] returns exactly
    when the word is a key of the dictionary, or one of its edits is, or it
    has two characters or more. *)
Theorem correct_returns_iff :
  correct [] "" = Raise undefined_behaviour
  /\ correct [("zebra", 1)] "q" = Raise undefined_behaviour
  /\ forall dictionary word,
       is_ok (correct dictionary word) = true <->
       (List.In word (keys dictionary)
        \/ (exists result c,
              edits word [] = Ok result
              /\ List.In c result /\ List.In c (keys dictionary))
        \/ (2 <= String.length word)%nat).
Proof.
  split; [|split].
  - unfold correct, correct_at. simpl find. now rewrite edits_empty.
  - unfold correct. rewrite (correct_at_two_edits _ "q" (edits_of "q")).
    + rewrite second_edits_empty_word by apply edits_of_one_letter.
      reflexivity.
    + reflexivity.
    + now rewrite edits_nonempty.
    + by_evaluation.
  - intros dictionary word. rewrite is_ok_correct. split.
    + destruct (correct_at dictionary word) as [[site v]|f] eqn:E;
        [intros _ | discriminate].
      apply correct_at_inv in E. destruct site.
      * left. apply E.
      * right; left. destruct E as (_ & result & He & Hk & Hb).
        apply best_entry in Hb as [x Hx].
        apply known_inv in Hx as [[]|[Hin Hf]]. simpl in Hin, Hf.
        exists result, v. repeat split; try assumption.
        apply find_key. now exists x.
      * right; right.
        destruct E as (_ & result & candidates & He & _ & Hs & _).
        now apply (second_edits_Ok dictionary word result [] candidates).
      * right; right. destruct E as (_ & result & He & _ & Hs & _).
        now apply (second_edits_Ok dictionary word result [] []).
    + intros [Hin|[(result & c & He & Hin & Hk)|Hw]].
      * now rewrite correct_at_exact.
      * destruct (find dictionary word) as [e|] eqn:Hf.
        -- unfold correct_at. now rewrite Hf.
        -- destruct (correct_at_one_edit_returns dictionary word result Hf He)
             as [v ->]; [now apply known_survivor with c | reflexivity].
      * now apply correct_at_long_word_returns.
Qed.

Lemma correct_returns_iff_witness :
  (2 <= String.length "quxxx")%nat
  /\ is_ok (correct [("zebra", 1)] "quxxx") = true.
Proof.
  split; [simpl; lia|].
  apply (proj2 (proj2 correct_returns_iff) [("zebra", 1)] "quxxx").
  right; right. simpl; lia.
Defined.

(** C6.  The claim says that whenever the word is not a key and a string
    one edit away is, [correct] returns such a string of greatest weight.
    The program does so for every word on which [edits] returns, that is for
    every word that is not empty: it returns, from line 103, an edit of the
    word that the dictionary holds and whose weight no other such edit
    exceeds, and ["cit"] is corrected to ["cat"] when ["cat"] weighs 5 and
    ["cot"] weighs 1.  It does not for the empty word: inserting the letter
    ['a'] into it gives ["a"], a key of the dictionary that holds ["a"]
    alone, and [correct] faults in [edits] (the wrapped bound of the
    transposition loop) instead of returning ["a"]. *)
Theorem correct_one_edit_max_weight :
  (forall dictionary word result c,
     find dictionary word = None ->
     edits word [] = Ok result ->
     List.In c result -> List.In c (keys dictionary) ->
     exists v x,
       correct_at dictionary word = Ok (line_103, v)
       /\ correct dictionary word = Ok v
       /\ List.In v result
       /\ find dictionary v = Some (v, x)
       /\ (forall c' x', List.In c' result ->
             find dictionary c' = Some (c', x') -> x' <= x))
  /\ correct (dictionary_of [("cat", 5); ("cot", 1)]) "cit" = Ok "cat"
  /\ (forall a w, edits (String a w) [] = Ok (edits_of (String a w)))
  /\ (List.In "a"%char alphabet
      /\ insertion "" "a" 0 = "a"
      /\ find (dictionary_of [("a", 1)]) "" = None
      /\ List.In "a" (keys (dictionary_of [("a", 1)]))
      /\ correct (dictionary_of [("a", 1)]) "" = Raise undefined_behaviour).
Proof.
  split; [|split; [by_evaluation|split]].
  - intros dictionary word result c Hf He Hin Hk.
    destruct (first_pass_selection dictionary word result c Hf He Hin Hk)
      as (v & x & Hc & Hv & Hfv & Hmax).
    exists v, x. unfold correct. rewrite Hc.
    repeat split; try assumption.
    intros c' x' Hin' Hf'. now apply (Hmax c' x').
  - intros a w. now rewrite edits_nonempty.
  - split; [now left|]. split; [reflexivity|]. split; [reflexivity|].
    split; [now left|].
    unfold correct, correct_at.
    change (find (dictionary_of [("a", 1)]) "") with (@None (string * Z)).
    now rewrite edits_empty.
Qed.

Lemma correct_one_edit_max_weight_witness :
  find (dictionary_of [("cat", 5); ("cot", 1)]) "cit" = None
  /\ edits "cit" [] = Ok (edits_of "cit")
  /\ List.In "cot" (edits_of "cit")
  /\ List.In "cot" (keys (dictionary_of [("cat", 5); ("cot", 1)]))
  /\ exists v x,
       correct_at (dictionary_of [("cat", 5); ("cot", 1)]) "cit"
       = Ok (line_103, v)
       /\ correct (dictionary_of [("cat", 5); ("cot", 1)]) "cit" = Ok v
       /\ List.In v (edits_of "cit")
       /\ find (dictionary_of [("cat", 5); ("cot", 1)]) v = Some (v, x)
       /\ (forall c' x', List.In c' (edits_of "cit") ->
             find (dictionary_of [("cat", 5); ("cot", 1)]) c' = Some (c', x') ->
             x' <= x).
Proof.
  assert (List.In "cot" (edits_of "cit")) as Hin
    by (apply In_by_eqb; by_evaluation).
  assert (List.In "cot" (keys (dictionary_of [("cat", 5); ("cot", 1)])))
    as Hk by (right; left; reflexivity).
  split; [reflexivity|]. split; [by_evaluation|].
  split; [exact Hin|]. split; [exact Hk|].
  apply (proj1 correct_one_edit_max_weight
           (dictionary_of [("cat", 5); ("cot", 1)]) "cit" (edits_of "cit")
           "cot");
    [reflexivity | by_evaluation | exact Hin | exact Hk].
Defined.

(** C4.  Against the claim: no word and no dictionary make line 116 return
    an edit of the word that the dictionary holds.  The test of line 102
    sends every call that found such an edit to the [return] of line 103. *)
Lemma second_pass_never_returns_first_pass_match :
  ~ exists dictionary word c,
      one_edit word c /\ List.In c (keys dictionary)
      /\ correct_at dictionary word = Ok (line_116, c).
Proof.
  intros (dictionary & word & c & (result & He & Hin) & Hk & H).
  apply correct_at_inv in H as (_ & result' & _ & He' & Hk' & _).
  rewrite He in He'. injection He' as <-.
  now apply (known_survivor dictionary result c).
Qed.

(** C4, amended.  When [correct] returns from line 116, the second pass
    started from an empty map: no edit of the word is a key of the
    dictionary.  The value returned is a key of the dictionary among the
    edits of the edits of the word, and is not an edit of the word. *)
Theorem second_pass_starts_empty (dictionary : map_t) (word v : string) :
  correct_at dictionary word = Ok (line_116, v) ->
  exists result,
    edits word [] = Ok result
    /\ known dictionary result [] = []
    /\ (forall c, List.In c result -> ~ List.In c (keys dictionary))
    /\ ~ List.In v result
    /\ List.In v (keys dictionary)
    /\ two_edits word v.
Proof.
  intro H.
  destruct (second_pass_selection dictionary word v H)
    as (result & candidates & x & He & Hk & _ & _ & Hf & Ht).
  assert (List.In v (keys dictionary)) as Hv
    by (apply find_key; now exists x).
  assert (forall c, List.In c result -> ~ List.In c (keys dictionary)) as Hn
    by (intros c Hin Hc;
        now apply (known_survivor dictionary result c Hin Hc)).
  exists result. repeat split; try assumption.
  intro Hin. now apply (Hn v).
Qed.

Lemma second_pass_starts_empty_witness :
  correct_at [("house", 1)] "hoos" = Ok (line_116, "house")
  /\ exists result,
       edits "hoos" [] = Ok result
       /\ known [("house", 1)] result [] = []
       /\ (forall c, List.In c result -> ~ List.In c (keys [("house", 1)]))
       /\ ~ List.In "house" result
       /\ List.In "house" (keys [("house", 1)])
       /\ two_edits "hoos" "house".
Proof.
  split; [by_evaluation|].
  apply (second_pass_starts_empty [("house", 1)] "hoos" "house").
  by_evaluation.
Defined.

(** C5.  Against the claim: the edits of ["ab"] start with ["b"] and ["a"],
    both of weight 1 in the dictionary, so ["b"] is the first of greatest
    weight in the order of generation; [correct] returns ["a"]. *)
Lemma tie_not_settled_by_generation_order :
  exists rest,
    edits "ab" [] = Ok ("b" :: "a" :: rest)
    /\ dictionary_of [("a", 1); ("b", 1)] = [("a", 1); ("b", 1)]
    /\ first_generated_best (dictionary_of [("a", 1); ("b", 1)])
         ("b" :: "a" :: rest) = Some "b"
    /\ correct (dictionary_of [("a", 1); ("b", 1)]) "ab" = Ok "a".
Proof.
  eexists. split; [by_evaluation|]. split; [by_evaluation|].
  split; by_evaluation.
Qed.

(** C5, amended.  Among the candidates of greatest weight [correct] returns
    the one whose key is least in the order of the map, the order of strings
    as sequences of unsigned bytes: the candidates are walked in the order
    of the keys, and [max_element] keeps the first of greatest weight.  This
    holds for the first pass, and for the second pass on a word of two
    characters or more. *)
Theorem correct_tie_goes_to_least_key :
  (forall dictionary word result c,
     find dictionary word = None ->
     edits word [] = Ok result ->
     List.In c result -> List.In c (keys dictionary) ->
     exists v x,
       correct_at dictionary word = Ok (line_103, v)
       /\ List.In v result
       /\ find dictionary v = Some (v, x)
       /\ (forall c' x', List.In c' result ->
             find dictionary c' = Some (c', x') ->
             x' <= x /\ (x' = x -> String.leb v c' = true)))
  /\ (forall dictionary word result c,
        (2 <= String.length word)%nat ->
        find dictionary word = None ->
        edits word [] = Ok result ->
        known dictionary result [] = [] ->
        two_edits word c -> List.In c (keys dictionary) ->
        exists v x,
          correct_at dictionary word = Ok (line_116, v)
          /\ two_edits word v
          /\ find dictionary v = Some (v, x)
          /\ (forall c' x', two_edits word c' ->
                find dictionary c' = Some (c', x') ->
                x' <= x /\ (x' = x -> String.leb v c' = true))).
Proof.
  split.
  - intros dictionary word result c. apply first_pass_selection.
  - intros dictionary word result c. apply second_pass_least_key.
Qed.

Lemma correct_tie_goes_to_least_key_witness :
  (find [("a", 1); ("b", 1)] "ab" = None
   /\ edits "ab" [] = Ok (edits_of "ab")
   /\ List.In "b" (edits_of "ab")
   /\ List.In "b" (keys [("a", 1); ("b", 1)])
   /\ exists v x,
        correct_at [("a", 1); ("b", 1)] "ab" = Ok (line_103, v)
        /\ List.In v (edits_of "ab")
        /\ find [("a", 1); ("b", 1)] v = Some (v, x)
        /\ (forall c' x', List.In c' (edits_of "ab") ->
              find [("a", 1); ("b", 1)] c' = Some (c', x') ->
              x' <= x /\ (x' = x -> String.leb v c' = true)))
  /\ ((2 <= String.length "hoos")%nat
      /\ find [("house", 1)] "hoos" = None
      /\ edits "hoos" [] = Ok (edits_of "hoos")
      /\ known [("house", 1)] (edits_of "hoos") [] = []
      /\ two_edits "hoos" "house"
      /\ List.In "house" (keys [("house", 1)])
      /\ exists v x,
           correct_at [("house", 1)] "hoos" = Ok (line_116, v)
           /\ two_edits "hoos" v
           /\ find [("house", 1)] v = Some (v, x)
           /\ (forall c' x', two_edits "hoos" c' ->
                 find [("house", 1)] c' = Some (c', x') ->
                 x' <= x /\ (x' = x -> String.leb v c' = true))).
Proof.
  assert (List.In "b" (edits_of "ab")) as Hb by now left.
  assert (List.In "b" (keys [("a", 1); ("b", 1)])) as Hkb
    by (right; now left).
  assert (two_edits "hoos" "house") as Ht.
  { exists "hous". split.
    - exists (edits_of "hoos").
      split; [by_evaluation | apply In_by_eqb; by_evaluation].
    - exists (edits_of "hous").
      split; [by_evaluation | apply In_by_eqb; by_evaluation]. }
  assert (List.In "house" (keys [("house", 1)])) as Hkh by now left.
  split.
  - split; [reflexivity|]. split; [by_evaluation|].
    split; [exact Hb|]. split; [exact Hkb|].
    apply (proj1 correct_tie_goes_to_least_key
             [("a", 1); ("b", 1)] "ab" (edits_of "ab") "b");
      [reflexivity | by_evaluation | exact Hb | exact Hkb].
  - split; [simpl; lia|]. split; [reflexivity|]. split; [by_evaluation|].
    split; [by_evaluation|]. split; [exact Ht|]. split; [exact Hkh|].
    apply (proj2 correct_tie_goes_to_least_key
             [("house", 1)] "hoos" (edits_of "hoos") "house");
      [simpl; lia | reflexivity | by_evaluation | by_evaluation
      | exact Ht | exact Hkh].
Defined.

(** C9.  A value that [correct] returns is the word itself, and then the
    word is a key of the dictionary, or a key of the dictionary, or the empty
    string; it is the word only when the word is a key of the dictionary. *)
Theorem correct_result_kinds (dictionary : map_t) (word v : string) :
  correct dictionary word = Ok v ->
  ((v = word /\ List.In word (keys dictionary))
   \/ List.In v (keys dictionary)
   \/ v = "")
  /\ (v = word -> List.In word (keys dictionary)).
Proof.
  intro H. apply correct_site in H as [site H].
  destruct site.
  - apply correct_at_inv in H as [-> Hin]. split; [now left | now intros _].
  - apply correct_at_inv in H as (_ & result & _ & _ & Hb).
    apply best_entry in Hb as [x Hx].
    apply known_inv in Hx as [[]|[_ Hf]]. simpl in Hf.
    assert (List.In v (keys dictionary)) as Hv
      by (apply find_key; now exists x).
    split; [right; now left | now intros <-].
  - destruct (second_pass_selection dictionary word v H)
      as (_ & _ & x & _ & _ & _ & _ & Hf & _).
    assert (List.In v (keys dictionary)) as Hv
      by (apply find_key; now exists x).
    split; [right; now left | now intros <-].
  - apply correct_at_inv in H as (_ & result & He & _ & _ & ->).
    split; [right; now right|].
    intros <-. now rewrite edits_empty in He.
Qed.

Lemma correct_result_kinds_witness :
  correct [("cat", 5); ("cot", 1)] "cit" = Ok "cat"
  /\ (("cat" = "cit" /\ List.In "cit" (keys [("cat", 5); ("cot", 1)]))
      \/ List.In "cat" (keys [("cat", 5); ("cot", 1)])
      \/ "cat" = "")
  /\ ("cat" = "cit" -> List.In "cit" (keys [("cat", 5); ("cot", 1)])).
Proof.
  split; [by_evaluation|].
  apply (correct_result_kinds [("cat", 5); ("cot", 1)] "cit" "cat").
  by_evaluation.
Defined.

(** * Further properties of the program *)

(** ** Cutting and joining strings *)

Section Cutting.

Lemma append_assoc (a b c : string) : (a ++ b) ++ c = a ++ (b ++ c).
Proof.
  induction a as [|x a IH]; simpl; [reflexivity | now rewrite IH].
Qed.

Lemma append_char_app (p : string) (c : ascii) (s : string) :
  append_char p c ++ s = p ++ String c s.
Proof. unfold append_char. now rewrite append_assoc. Qed.

Lemma take_drop (n : nat) (s : string) : take n s ++ drop n s = s.
Proof.
  revert s; induction n as [|n IH]; intros [|c s]; simpl;
    try reflexivity. now rewrite IH.
Qed.

Lemma length_take_le (n : nat) (s : string) :
  (n <= String.length s)%nat -> String.length (take n s) = n.
Proof. intro H. rewrite length_take. lia. Qed.

Lemma drop_char (n : nat) (s : string) :
  (n < String.length s)%nat ->
  drop n s = String (char_at s n) (drop (S n) s).
Proof.
  revert s; induction n as [|n IH]; intros [|c s] H; simpl in H;
    try lia.
  - reflexivity.
  - simpl drop. rewrite (IH s) by lia. reflexivity.
Qed.

Lemma take_app (p x : string) (i : nat) :
  String.length p = i -> take i (p ++ x) = p.
Proof.
  intros <-. induction p as [|c p IH]; simpl.
  - now destruct x.
  - now rewrite IH.
Qed.

Lemma drop_app (p x : string) (i n : nat) :
  String.length p = i -> drop (i + n) (p ++ x) = drop n x.
Proof.
  intros <-. induction p as [|c p IH]; simpl; [reflexivity | exact IH].
Qed.

Lemma char_at_app (p x : string) (i n : nat) :
  String.length p = i -> char_at (p ++ x) (i + n) = char_at x n.
Proof.
  intros <-. unfold char_at.
  induction p as [|c p IH]; simpl; [reflexivity | exact IH].
Qed.

Lemma drop_app_0 (p x : string) (i : nat) :
  String.length p = i -> drop i (p ++ x) = x.
Proof.
  intro H. replace i with (i + 0)%nat by lia. now rewrite (drop_app p x i 0 H).
Qed.

Lemma drop_app_1 (p x : string) (c : ascii) (i : nat) :
  String.length p = i -> drop (S i) (p ++ String c x) = x.
Proof.
  intro H. replace (S i) with (i + 1)%nat by lia.
  now rewrite (drop_app p _ i 1 H).
Qed.

Lemma drop_app_2 (p x : string) (c c' : ascii) (i : nat) :
  String.length p = i -> drop (S (S i)) (p ++ String c (String c' x)) = x.
Proof.
  intro H. replace (S (S i)) with (i + 2)%nat by lia.
  now rewrite (drop_app p _ i 2 H).
Qed.

Lemma char_at_app_0 (p x : string) (c : ascii) (i : nat) :
  String.length p = i -> char_at (p ++ String c x) i = c.
Proof.
  intro H. replace i with (i + 0)%nat by lia.
  now rewrite (char_at_app p _ i 0 H).
Qed.

Lemma char_at_app_1 (p x : string) (c c' : ascii) (i : nat) :
  String.length p = i -> char_at (p ++ String c (String c' x)) (S i) = c'.
Proof.
  intro H. replace (S i) with (i + 1)%nat by lia.
  now rewrite (char_at_app p _ i 1 H).
Qed.

End Cutting.

(** ** The four kinds of edit *)

Section Kinds.

Lemma deletion_form (w : string) (i : nat) :
  deletion w i = take i w ++ drop (S i) w.
Proof. reflexivity. Qed.

Lemma transposition_form (w : string) (i : nat) :
  transposition w i
  = take i w ++ String (char_at w (S i)) (String (char_at w i)
                                            (drop (S (S i)) w)).
Proof.
  unfold transposition. now rewrite !append_char_app.
Qed.

Lemma alteration_form (w : string) (j : ascii) (i : nat) :
  alteration w j i = take i w ++ String j (drop (S i) w).
Proof. unfold alteration. now rewrite append_char_app. Qed.

Lemma insertion_form (w : string) (j : ascii) (i : nat) :
  insertion w j i = take i w ++ String j (drop i w).
Proof. unfold insertion. now rewrite append_char_app. Qed.

Lemma length_deletion (w : string) (i : nat) :
  (i < String.length w)%nat ->
  String.length (deletion w i) = (String.length w - 1)%nat.
Proof.
  intro H. rewrite deletion_form, length_append, length_take, length_drop.
  lia.
Qed.

Lemma length_transposition (w : string) (i : nat) :
  (S i < String.length w)%nat ->
  String.length (transposition w i) = String.length w.
Proof.
  intro H. rewrite transposition_form, length_append, length_take.
  cbn [String.length]. rewrite length_drop. lia.
Qed.

Lemma length_alteration (w : string) (j : ascii) (i : nat) :
  (i < String.length w)%nat ->
  String.length (alteration w j i) = String.length w.
Proof.
  intro H. rewrite alteration_form, length_append, length_take.
  cbn [String.length]. rewrite length_drop. lia.
Qed.

Lemma length_insertion (w : string) (j : ascii) (i : nat) :
  (i <= String.length w)%nat ->
  String.length (insertion w j i) = S (String.length w).
Proof.
  intro H. rewrite insertion_form, length_append, length_take.
  cbn [String.length]. rewrite length_drop. lia.
Qed.

(** Each kind of edit is undone by an edit at the same position. *)

Lemma deletion_of_insertion (w : string) (j : ascii) (i : nat) :
  (i <= String.length w)%nat -> deletion (insertion w j i) i = w.
Proof.
  intro H. pose proof (length_take_le i w H) as Hp.
  rewrite deletion_form, insertion_form.
  rewrite (take_app _ _ i Hp), (drop_app_1 _ _ _ i Hp).
  apply take_drop.
Qed.

Lemma insertion_of_deletion (w : string) (i : nat) :
  (i < String.length w)%nat ->
  insertion (deletion w i) (char_at w i) i = w.
Proof.
  intro H. assert (i <= String.length w)%nat as Hle by lia.
  pose proof (length_take_le i w Hle) as Hp.
  rewrite insertion_form, deletion_form.
  rewrite (take_app _ _ i Hp), (drop_app_0 _ _ i Hp).
  rewrite <- (drop_char i w H). apply take_drop.
Qed.

Lemma alteration_of_alteration (w : string) (j : ascii) (i : nat) :
  (i < String.length w)%nat ->
  alteration (alteration w j i) (char_at w i) i = w.
Proof.
  intro H. assert (i <= String.length w)%nat as Hle by lia.
  pose proof (length_take_le i w Hle) as Hp.
  rewrite (alteration_form (alteration w j i)), (alteration_form w).
  rewrite (take_app _ _ i Hp), (drop_app_1 _ _ _ i Hp).
  rewrite <- (drop_char i w H). apply take_drop.
Qed.

Lemma transposition_of_transposition (w : string) (i : nat) :
  (S i < String.length w)%nat ->
  transposition (transposition w i) i = w.
Proof.
  intro H. assert (i <= String.length w)%nat as Hle by lia.
  pose proof (length_take_le i w Hle) as Hp.
  rewrite (transposition_form (transposition w i)).
  rewrite (transposition_form w).
  rewrite (take_app _ _ i Hp), (drop_app_2 _ _ _ _ i Hp).
  rewrite (char_at_app_0 _ _ _ i Hp), (char_at_app_1 _ _ _ _ i Hp).
  rewrite <- (drop_char (S i) w H).
  rewrite <- (drop_char i w) by lia. apply take_drop.
Qed.

End Kinds.

(** ** The edits of a word *)

Section Generator.

Lemma one_edit_iff (w c : string) :
  one_edit w c <-> w <> "" /\ List.In c (edits_of w).
Proof.
  unfold one_edit. split.
  - intros (result & He & Hin). apply edits_Ok in He as [Hw ->]. now split.
  - intros [Hw Hin]. exists (edits_of w). split; [|assumption].
    now rewrite edits_nonempty.
Qed.

Lemma edits_of_kinds (w c : string) :
  List.In c (edits_of w) <->
  (exists i, (i < String.length w)%nat /\ c = deletion w i)
  \/ (exists i, (S i < String.length w)%nat /\ c = transposition w i)
  \/ (exists j i, List.In j alphabet /\ (i < String.length w)%nat
                  /\ c = alteration w j i)
  \/ (exists j i, List.In j alphabet /\ (i <= String.length w)%nat
                  /\ c = insertion w j i).
Proof.
  unfold edits_of. rewrite !List.in_app_iff, !List.in_map_iff, List.in_flat_map.
  split.
  - intros [(i & <- & Hi)|[(i & <- & Hi)|(j & Hj & H)]].
    + left. exists i. apply List.in_seq in Hi. split; [lia | reflexivity].
    + right; left. exists i. apply List.in_seq in Hi.
      split; [lia | reflexivity].
    + unfold per_letter in H. rewrite List.in_app_iff, !List.in_map_iff in H.
      destruct H as [(i & <- & Hi)|(i & <- & Hi)]; apply List.in_seq in Hi.
      * right; right; left. exists j, i. repeat split; [assumption | lia].
      * right; right; right. exists j, i. repeat split; [assumption | lia].
  - intros [(i & Hi & ->)|[(i & Hi & ->)|[(j & i & Hj & Hi & ->)
                                         |(j & i & Hj & Hi & ->)]]].
    + left. exists i. split; [reflexivity | apply List.in_seq; lia].
    + right; left. exists i. split; [reflexivity | apply List.in_seq; lia].
    + right; right. exists j. split; [assumption|]. unfold per_letter.
      rewrite List.in_app_iff, !List.in_map_iff. left. exists i.
      split; [reflexivity | apply List.in_seq; lia].
    + right; right. exists j. split; [assumption|]. unfold per_letter.
      rewrite List.in_app_iff, !List.in_map_iff. right. exists i.
      split; [reflexivity | apply List.in_seq; lia].
Qed.


End Generator.

(** X1.  [edits] only appends: called on a vector that already holds
    strings, it leaves them in place and adds after them what it adds to an
    empty vector; it faults on the one when it faults on the other. *)
Theorem edits_appends (word : string) (results : list string) :
  edits word results
  = outcome_map (fun r => (results ++ r)%list) (edits word []).
Proof.
  destruct (string_dec word "") as [->|Hw].
  - now rewrite !edits_empty.
  - now rewrite !edits_nonempty.
Qed.

(** X2.  A string that [edits] produces for a word is at most one character
    shorter and at most one character longer than the word. *)
Theorem one_edit_length (word c : string) :
  one_edit word c ->
  (String.length word <= String.length c + 1
   /\ String.length c <= String.length word + 1)%nat.
Proof.
  intro H. apply one_edit_iff in H as [_ H]. apply edits_of_kinds in H.
  destruct H as [(i & Hi & ->)|[(i & Hi & ->)|[(j & i & Hj & Hi & ->)
                                              |(j & i & Hj & Hi & ->)]]].
  - rewrite length_deletion by assumption. lia.
  - rewrite length_transposition by assumption. lia.
  - rewrite length_alteration by assumption. lia.
  - rewrite length_insertion by assumption. lia.
Qed.

Lemma one_edit_length_witness :
  one_edit "cat" "at"
  /\ (String.length "cat" <= String.length "at" + 1
      /\ String.length "at" <= String.length "cat" + 1)%nat.
Proof.
  assert (one_edit "cat" "at") as H
    by (exists (edits_of "cat"); split; [by_evaluation | in_list]).
  split; [exact H | apply (one_edit_length "cat" "at" H)].
Defined.

(** X3.  What [edits] produces for a word: nothing for the empty word, and
    otherwise exactly the deletions of one character, the transpositions of
    two neighbours, the replacements of one character by a letter from ['a']
    to ['z'] and the insertions of such a letter at any position, the end
    included. *)
Theorem one_edit_kinds (word c : string) :
  one_edit word c <->
  word <> ""
  /\ ((exists i, (i < String.length word)%nat /\ c = deletion word i)
      \/ (exists i, (S i < String.length word)%nat
                    /\ c = transposition word i)
      \/ (exists j i, List.In j alphabet /\ (i < String.length word)%nat
                      /\ c = alteration word j i)
      \/ (exists j i, List.In j alphabet /\ (i <= String.length word)%nat
                      /\ c = insertion word j i)).
Proof.
  rewrite one_edit_iff. now rewrite edits_of_kinds.
Qed.

(** X4.  On words in lower case the edits go both ways: when [edits]
    produces a non-empty string [c] for a word made of the letters ['a'] to
    ['z'], it produces the word for [c]. *)
Theorem one_edit_symmetric (word c : string) :
  lowercase word -> c <> "" -> one_edit word c -> one_edit c word.
Proof.
  intros Hl Hc H. apply one_edit_iff in H as [_ H].
  apply one_edit_iff. split; [assumption|].
  apply edits_of_kinds in H. apply edits_of_kinds.
  destruct H as [(i & Hi & ->)|[(i & Hi & ->)|[(j & i & Hj & Hi & ->)
                                              |(j & i & Hj & Hi & ->)]]].
  - right; right; right. exists (char_at word i), i.
    rewrite length_deletion by assumption.
    repeat split; [now apply Hl | lia |].
    symmetry. now apply insertion_of_deletion.
  - right; left. exists i. rewrite length_transposition by assumption.
    split; [assumption|]. symmetry. now apply transposition_of_transposition.
  - right; right; left. exists (char_at word i), i.
    rewrite length_alteration by assumption.
    repeat split; [now apply Hl | assumption |].
    symmetry. now apply alteration_of_alteration.
  - left. exists i. rewrite length_insertion by assumption.
    split; [lia|]. symmetry. now apply deletion_of_insertion.
Qed.

Lemma one_edit_symmetric_witness :
  lowercase "the" /\ "teh" <> "" /\ one_edit "the" "teh"
  /\ one_edit "teh" "the".
Proof.
  assert (lowercase "the") as Hl.
  { intros i Hi. destruct i as [|[|[|i]]];
      [in_list | in_list | in_list | simpl in Hi; lia]. }
  assert (one_edit "the" "teh") as H
    by (exists (edits_of "the"); split; [by_evaluation | in_list]).
  split; [exact Hl|]. split; [discriminate|]. split; [exact H|].
  apply (one_edit_symmetric "the" "teh" Hl); [discriminate | exact H].
Defined.

(** X5.  A slip of one edit is put right in the first pass.  Let [v] be a
    key of the dictionary in lower case and let [word] be a non-empty string
    that [edits] produces for [v] and that is not itself a key.  Then
    [correct] returns from line 103 a key among the edits of [word] that
    weighs at least as much as [v]; it returns [v] when no other key is
    among the edits of [word]. *)
Theorem correct_recovers_one_edit (dictionary : map_t) (v word : string) :
  List.In v (keys dictionary) -> lowercase v ->
  one_edit v word -> word <> "" -> ~ List.In word (keys dictionary) ->
  exists r x xv,
    correct_at dictionary word = Ok (line_103, r)
    /\ one_edit word r
    /\ find dictionary r = Some (r, x)
    /\ find dictionary v = Some (v, xv)
    /\ xv <= x
    /\ ((forall c, one_edit word c -> List.In c (keys dictionary) -> c = v) ->
        r = v).
Proof.
  intros Hv Hl He Hw Hn.
  pose proof (one_edit_symmetric v word Hl Hw He) as Hback.
  destruct Hback as (result & Hr & Hin).
  apply find_None in Hn.
  destruct (first_pass_selection dictionary word result v Hn Hr Hin Hv)
    as (r & x & Hc & Hrin & Hfr & Hmax).
  pose proof Hv as Hv'. apply find_key in Hv' as [xv Hxv].
  exists r, x, xv. repeat split; try assumption.
  - now exists result.
  - now apply (Hmax v xv).
  - intro Honly. apply Honly; [now exists result|].
    apply find_key. now exists x.
Qed.

Lemma correct_recovers_one_edit_witness :
  List.In "hello" (keys [("hello", 1)])
  /\ lowercase "hello"
  /\ one_edit "hello" "helo"
  /\ "helo" <> ""
  /\ ~ List.In "helo" (keys [("hello", 1)])
  /\ exists r x xv,
       correct_at [("hello", 1)] "helo" = Ok (line_103, r)
       /\ one_edit "helo" r
       /\ find [("hello", 1)] r = Some (r, x)
       /\ find [("hello", 1)] "hello" = Some ("hello", xv)
       /\ xv <= x
       /\ ((forall c, one_edit "helo" c ->
              List.In c (keys [("hello", 1)]) -> c = "hello") ->
           r = "hello").
Proof.
  assert (List.In "hello" (keys [("hello", 1)])) as Hv by now left.
  assert (lowercase "hello") as Hl.
  { intros i Hi. destruct i as [|[|[|[|[|i]]]]];
      [in_list | in_list | in_list | in_list | in_list | simpl in Hi; lia]. }
  assert (one_edit "hello" "helo") as He
    by (exists (edits_of "hello"); split; [by_evaluation | in_list]).
  assert (~ List.In "helo" (keys [("hello", 1)])) as Hn
    by (intros [E|[]]; discriminate).
  split; [exact Hv|]. split; [exact Hl|]. split; [exact He|].
  split; [discriminate|]. split; [exact Hn|].
  apply (correct_recovers_one_edit [("hello", 1)] "hello" "helo" Hv Hl He);
    [discriminate | exact Hn].
Defined.



(** ** Maps as sets of entries *)

Section Extensionality.

Lemma key_lt_irrefl (e : string * Z) : ~ key_lt e e.
Proof. unfold key_lt. rewrite compare_refl. discriminate. Qed.

Lemma key_lt_trans (e1 e2 e3 : string * Z) :
  key_lt e1 e2 -> key_lt e2 e3 -> key_lt e1 e3.
Proof. unfold key_lt. apply compare_lt_trans. Qed.

Lemma sorted_head (e : string * Z) (m : map_t) :
  sorted (e :: m) -> forall e', List.In e' m -> key_lt e e'.
Proof.
  intro Hs. inversion Hs as [|? ? _ Hall]; subst.
  now apply List.Forall_forall.
Qed.

Lemma sorted_tail (e : string * Z) (m : map_t) : sorted (e :: m) -> sorted m.
Proof. intro Hs. now inversion Hs. Qed.

(** A key occurs once in a map. *)
Lemma sorted_NoDup (m : map_t) : sorted m -> List.NoDup (keys m).
Proof.
  induction m as [|e m IH]; intro Hs; simpl; constructor.
  - intro Hin. apply List.in_map_iff in Hin as (e' & Hk & Hin).
    pose proof (sorted_head e m Hs e' Hin) as Hlt.
    unfold key_lt in Hlt. rewrite Hk, compare_refl in Hlt. discriminate.
  - apply IH. now apply sorted_tail in Hs.
Qed.

(** Two maps with the same entries are the same map. *)
Lemma sorted_ext (m1 : map_t) :
  forall m2, sorted m1 -> sorted m2 ->
    (forall e, List.In e m1 <-> List.In e m2) -> m1 = m2.
Proof.
  induction m1 as [|e1 m1 IH]; intros [|e2 m2] H1 H2 Hsame.
  - reflexivity.
  - exfalso. apply (proj2 (Hsame e2)). now left.
  - exfalso. apply (proj1 (Hsame e1)). now left.
  - assert (e1 = e2) as ->.
    { destruct (proj1 (Hsame e1) (or_introl eq_refl)) as [E|Hin1];
        [now symmetry|].
      destruct (proj2 (Hsame e2) (or_introl eq_refl)) as [E|Hin2];
        [assumption|].
      exfalso. apply (key_lt_irrefl e1).
      apply key_lt_trans with e2.
      - now apply (sorted_head e1 m1 H1).
      - now apply (sorted_head e2 m2 H2). }
    f_equal. apply IH.
    + now apply sorted_tail in H1.
    + now apply sorted_tail in H2.
    + intro e. split; intro Hin.
      * destruct (proj1 (Hsame e) (or_intror Hin)) as [<-|H]; [|exact H].
        exfalso. apply (key_lt_irrefl e2). now apply (sorted_head e2 m1 H1).
      * destruct (proj2 (Hsame e) (or_intror Hin)) as [<-|H]; [|exact H].
        exfalso. apply (key_lt_irrefl e2). now apply (sorted_head e2 m2 H2).
Qed.

Lemma known_entries (dictionary : map_t) (results : list string)
    (e : string * Z) :
  List.In e (known dictionary results []) <->
  List.In (fst e) results /\ find dictionary (fst e) = Some e.
Proof.
  split.
  - intro H. now apply known_inv in H as [[]|H].
  - intros [Hin Hf].
    apply (known_finds dictionary results [] (fst e) e);
      [apply from_dictionary_nil | assumption | assumption].
Qed.

End Extensionality.

(** X7.  The map that [known] fills from an empty one holds exactly the
    results that are keys of the dictionary, each with the weight the
    dictionary gives it, and each once, however often it occurs among the
    results. *)
Theorem known_exactly (dictionary : map_t) (results : list string) :
  (forall k x,
     List.In (k, x) (known dictionary results []) <->
     List.In k results /\ find dictionary k = Some (k, x))
  /\ List.NoDup (keys (known dictionary results []))
  /\ sorted (known dictionary results []).
Proof.
  split; [|split].
  - intros k x. apply (known_entries dictionary results (k, x)).
  - apply sorted_NoDup, known_sorted, sorted_nil.
  - apply known_sorted, sorted_nil.
Qed.

(** X8.  The map that [known] fills from an empty one depends on which
    strings are among the results, not on their order nor on how often they
    occur. *)
Theorem known_order_free (dictionary : map_t) (r1 r2 : list string) :
  (forall c, List.In c r1 <-> List.In c r2) ->
  known dictionary r1 [] = known dictionary r2 [].
Proof.
  intro Hsame. apply sorted_ext.
  - apply known_sorted, sorted_nil.
  - apply known_sorted, sorted_nil.
  - intro e. rewrite !known_entries. now rewrite Hsame.
Qed.

Lemma known_order_free_witness :
  (forall c, List.In c ["b"; "a"; "b"] <-> List.In c ["a"; "b"])
  /\ known [("a", 1); ("b", 1)] ["b"; "a"; "b"] []
     = known [("a", 1); ("b", 1)] ["a"; "b"] [].
Proof.
  assert (forall c, List.In c ["b"; "a"; "b"] <-> List.In c ["a"; "b"]) as H
    by (intro c; simpl; tauto).
  split; [exact H|].
  apply (known_order_free [("a", 1); ("b", 1)] _ _ H).
Defined.

(** X9.  Filtering the same results twice into a map changes nothing the
    second time, for a map whose entries are entries of the dictionary. *)
Theorem known_idempotent (dictionary : map_t) (results : list string)
    (candidates : map_t) :
  sorted candidates -> from_dictionary dictionary candidates ->
  known dictionary results (known dictionary results candidates)
  = known dictionary results candidates.
Proof.
  intros Hs Hc. apply sorted_ext.
  - now apply known_sorted, known_sorted.
  - now apply known_sorted.
  - intro e. split; intro H.
    + apply known_inv in H as [H|[Hin Hf]]; [exact H|].
      now apply (known_finds dictionary results candidates (fst e) e).
    + apply known_keeps; [now apply known_from_dictionary | exact H].
Qed.

Lemma known_idempotent_witness :
  sorted [("a", 1)]
  /\ from_dictionary [("a", 1); ("b", 1)] [("a", 1)]
  /\ known [("a", 1); ("b", 1)] ["b"; "c"]
       (known [("a", 1); ("b", 1)] ["b"; "c"] [("a", 1)])
     = known [("a", 1); ("b", 1)] ["b"; "c"] [("a", 1)].
Proof.
  assert (sorted [("a", 1)]) as Hs
    by (repeat constructor).
  assert (from_dictionary [("a", 1); ("b", 1)] [("a", 1)]) as Hc
    by (intros e [<-|[]]; reflexivity).
  split; [exact Hs|]. split; [exact Hc|].
  apply (known_idempotent [("a", 1); ("b", 1)] ["b"; "c"] [("a", 1)] Hs Hc).
Defined.

(** ** Which [return] statement is taken *)

Section Tiers.

Variable dictionary : map_t.

Lemma no_key_among_edits (word : string) (result : list string) :
  edits word [] = Ok result ->
  (known dictionary result [] = [] <->
   forall c, one_edit word c -> ~ List.In c (keys dictionary)).
Proof.
  intro He. rewrite known_empty. split.
  - intros Hnone c (result' & He' & Hin). rewrite He in He'.
    injection He' as <-. apply find_None. now apply Hnone.
  - intros Hnone r Hin. apply find_None. apply Hnone. now exists result.
Qed.

Lemma two_edits_flat (word c : string) :
  (2 <= String.length word)%nat ->
  List.In c (List.flat_map edits_of (edits_of word)) -> two_edits word c.
Proof.
  intros Hw Hin. apply List.in_flat_map in Hin as (r & Hr & Hc).
  assert (word <> "") as Hne by (intros ->; simpl in Hw; lia).
  assert (r <> "") as Hrne
    by (intros ->; now apply (edits_of_long_word word Hw)).
  exists r. split; apply one_edit_iff; now split.
Qed.

End Tiers.

(** X10.  The passes of [correct] are tried in order and each return site
    has its condition.  Line 97 returns exactly when the word is a key of
    the dictionary; line 103 exactly when it is not and one of its edits is;
    line 116 exactly when the word has two characters or more, neither it
    nor any of its edits is a key, and an edit of one of its edits is. *)
Theorem return_statement_taken (dictionary : map_t) (word : string) :
  ((exists v, correct_at dictionary word = Ok (line_97, v)) <->
   List.In word (keys dictionary))
  /\ ((exists v, correct_at dictionary word = Ok (line_103, v)) <->
      ~ List.In word (keys dictionary)
      /\ exists c, one_edit word c /\ List.In c (keys dictionary))
  /\ ((exists v, correct_at dictionary word = Ok (line_116, v)) <->
      ~ List.In word (keys dictionary)
      /\ (2 <= String.length word)%nat
      /\ (forall c, one_edit word c -> ~ List.In c (keys dictionary))
      /\ exists c, two_edits word c /\ List.In c (keys dictionary)).
Proof.
  split; [|split].
  - split.
    + intros [v H]. now apply correct_at_inv in H as [_ H].
    + intro H. exists word. now apply correct_at_exact.
  - split.
    + intros [v H]. apply correct_at_inv in H as (Hf & result & He & _ & Hb).
      split; [now apply find_None|].
      apply best_entry in Hb as [x Hx].
      apply known_entries in Hx as [Hin Hfv]. simpl in Hin, Hfv.
      exists v. split; [now exists result | apply find_key; now exists x].
    + intros (Hn & c & (result & He & Hin) & Hk). apply find_None in Hn.
      destruct (first_pass_selection dictionary word result c Hn He Hin Hk)
        as (v & _ & H & _).
      now exists v.
  - split.
    + intros [v H].
      destruct (second_pass_selection dictionary word v H)
        as (result & candidates & x & He & Hk & Hs & _ & Hfv & Ht).
      apply correct_at_inv in H as [Hf _].
      split; [now apply find_None|].
      split; [now apply (second_edits_Ok dictionary word result []
                           candidates)|].
      split; [now apply (no_key_among_edits dictionary word result He)|].
      exists v. split; [assumption | apply find_key; now exists x].
    + intros (Hn & Hw & Hnone & c & Ht & Hk). apply find_None in Hn.
      assert (word <> "") as Hne by (intros ->; simpl in Hw; lia).
      pose proof (edits_nonempty word [] Hne) as He. simpl in He.
      destruct (second_pass_least_key dictionary word (edits_of word) c)
        as (v & _ & H & _); try assumption.
      * now apply (no_key_among_edits dictionary word (edits_of word) He).
      * now exists v.
Qed.

(** X11.  [correct] reaches line 118, and returns the empty string for "no
    correction", exactly when the word has two characters or more and no key
    of the dictionary is the word, an edit of it, or an edit of one of its
    edits. *)
Theorem no_correction_iff (dictionary : map_t) (word : string) :
  correct_at dictionary word = Ok (line_118, "") <->
  ~ List.In word (keys dictionary)
  /\ (2 <= String.length word)%nat
  /\ (forall c, one_edit word c -> ~ List.In c (keys dictionary))
  /\ (forall c, two_edits word c -> ~ List.In c (keys dictionary)).
Proof.
  split.
  - intro H. apply correct_at_inv in H as (Hf & result & He & Hk & Hs & _).
    split; [now apply find_None|].
    split; [now apply (second_edits_Ok dictionary word result [] [])|].
    split; [now apply (no_key_among_edits dictionary word result He)|].
    intros c (r & (result' & He' & Hr) & (sub & Hsub & Hin)) Hc.
    rewrite He in He'. injection He' as <-.
    apply find_key in Hc as [x Hx].
    apply (second_edits_finds dictionary result [] [] r sub c (c, x)
             (from_dictionary_nil dictionary) Hs Hr Hsub Hin Hx).
  - intros (Hn & Hw & Hone & Htwo). apply find_None in Hn.
    assert (word <> "") as Hne by (intros ->; simpl in Hw; lia).
    pose proof (edits_nonempty word [] Hne) as He. simpl in He.
    assert (known dictionary (edits_of word) [] = []) as Hk
      by now apply (no_key_among_edits dictionary word (edits_of word) He).
    rewrite (correct_at_two_edits dictionary word (edits_of word) Hn He Hk).
    rewrite second_edits_nonempty by now apply edits_of_long_word.
    rewrite bind_Ok.
    assert (known dictionary (List.flat_map edits_of (edits_of word)) [] = [])
      as ->; [|reflexivity].
    apply known_empty. intros r Hr. apply find_None.
    apply Htwo. now apply two_edits_flat.
Qed.

(** ** The dictionary over a session *)

Section Session.

Lemma filled_dictionary (dictionary : map_t) (word : string)
    (WORDS : list string) :
  fst (string_suggestion dictionary word WORDS)
  = List.fold_left (fun d w => assign d w 1) WORDS dictionary.
Proof. reflexivity. Qed.

Lemma fill_sorted (WORDS : list string) :
  forall m, sorted m ->
    sorted (List.fold_left (fun d w => assign d w 1) WORDS m).
Proof.
  induction WORDS as [|w WORDS IH]; intros m Hs; [exact Hs|].
  simpl. apply IH. now apply assign_sorted.
Qed.

Lemma fill_weights (WORDS : list string) :
  forall m, (forall e, List.In e m -> snd e = 1) ->
    forall e, List.In e (List.fold_left (fun d w => assign d w 1) WORDS m) ->
      snd e = 1.
Proof.
  induction WORDS as [|w WORDS IH]; intros m Hm e He; [now apply Hm|].
  simpl in He. apply (IH (assign m w 1)); [|exact He].
  intros e' He'. apply assign_inv in He' as [->|He']; [reflexivity|].
  now apply Hm.
Qed.

Lemma fill_keys (WORDS : list string) :
  forall m k,
    List.In k (keys (List.fold_left (fun d w => assign d w 1) WORDS m)) <->
    List.In k (keys m) \/ List.In k WORDS.
Proof.
  induction WORDS as [|w WORDS IH]; intros m k; simpl.
  - tauto.
  - rewrite IH. split.
    + intros [H|H]; [|now right; right].
      apply List.in_map_iff in H as (e & <- & He).
      apply assign_inv in He as [->|He]; [right; now left|].
      left. now apply List.in_map.
    + intros [H|[->|H]].
      * left. now apply assign_keeps_keys.
      * left. apply (List.in_map fst _ (k, 1)), assign_new.
      * now right.
Qed.

Lemma session_fold (calls : list (string * list string)) :
  forall m,
    sorted m -> (forall e, List.In e m -> snd e = 1) ->
    let m' := List.fold_left (fun d call =>
                fst (string_suggestion d (fst call) (snd call))) calls m in
    sorted m'
    /\ (forall e, List.In e m' -> snd e = 1)
    /\ (forall k, List.In k (keys m') <->
                  List.In k (keys m)
                  \/ exists call, List.In call calls /\ List.In k (snd call)).
Proof.
  induction calls as [|call calls IH]; intros m Hs Hw; simpl.
  - split; [assumption|]. split; [assumption|].
    intro k. split; [now left | now intros [H|(call & [] & _)]].
  - destruct (IH (fst (string_suggestion m (fst call) (snd call))))
      as (Hs' & Hw' & Hk').
    + rewrite filled_dictionary. now apply fill_sorted.
    + rewrite filled_dictionary. now apply fill_weights.
    + split; [assumption|]. split; [assumption|].
      intro k. rewrite Hk', filled_dictionary, fill_keys. split.
      * intros [[H|H]|(call' & Hc & H)].
        -- now left.
        -- right. exists call. split; [now left | assumption].
        -- right. exists call'. split; [now right | assumption].
      * intros [H|(call' & [<-|Hc] & H)].
        -- left; now left.
        -- left; now right.
        -- right. now exists call'.
Qed.

Lemma session_weights (calls : list (string * list string)) :
  forall e, List.In e (dictionary_after calls) -> snd e = 1.
Proof.
  destruct (session_fold calls dictionary_at_load) as (_ & Hw & _).
  - apply sorted_nil.
  - intros e [].
  - exact Hw.
Qed.

End Session.

(** X12.  After any session the global dictionary is a map with one entry
    for each term that some call of the session supplied, and every weight
    in it is 1: a call adds its terms and takes nothing out. *)
Theorem dictionary_after_session (calls : list (string * list string)) :
  sorted (dictionary_after calls)
  /\ List.NoDup (keys (dictionary_after calls))
  /\ (forall k x, List.In (k, x) (dictionary_after calls) -> x = 1)
  /\ (forall k,
        List.In k (keys (dictionary_after calls)) <->
        exists call, List.In call calls /\ List.In k (snd call)).
Proof.
  destruct (session_fold calls dictionary_at_load) as (Hs & Hw & Hk).
  - apply sorted_nil.
  - intros e [].
  - fold (dictionary_after calls) in Hs, Hw, Hk.
    split; [exact Hs|]. split; [now apply sorted_NoDup|].
    split; [intros k x H; apply (Hw (k, x) H)|].
    intro k. rewrite Hk. simpl. tauto.
Qed.

(** X13.  Since all weights are 1, the first pass of a call of
    [string_suggestion] always ends in a tie, and the call answers with the
    least term in the order of unsigned bytes: in any session, when the
    word is not a term of the dictionary and an edit of it is, the call
    returns the edit that is a term and is least among such edits. *)
Theorem string_suggestion_least_term
    (calls : list (string * list string)) (word : string)
    (WORDS : list string) (c : string) :
  let dictionary :=
    fst (string_suggestion (dictionary_after calls) word WORDS) in
  ~ List.In word (keys dictionary) ->
  one_edit word c -> List.In c (keys dictionary) ->
  exists v,
    snd (string_suggestion (dictionary_after calls) word WORDS) = Ok v
    /\ one_edit word v
    /\ List.In v (keys dictionary)
    /\ (forall c', one_edit word c' -> List.In c' (keys dictionary) ->
          String.leb v c' = true).
Proof.
  intros dictionary Hn (result & He & Hin) Hk.
  assert (forall e, List.In e dictionary -> snd e = 1) as Hw.
  { unfold dictionary. rewrite filled_dictionary. apply fill_weights.
    apply session_weights. }
  apply find_None in Hn.
  destruct (first_pass_selection dictionary word result c Hn He Hin Hk)
    as (v & x & Hc & Hv & Hfv & Hmax).
  exists v. split; [|split; [|split]].
  - change (snd (string_suggestion (dictionary_after calls) word WORDS))
      with (correct dictionary word).
    unfold correct. now rewrite Hc.
  - now exists result.
  - apply find_key. now exists x.
  - intros c' (result' & He' & Hin') Hk'. rewrite He in He'.
    injection He' as <-. apply find_key in Hk' as [x' Hx'].
    apply (Hmax c' x' Hin' Hx').
    destruct (find_Some _ _ _ Hx') as [_ H1].
    destruct (find_Some _ _ _ Hfv) as [_ H2].
    rewrite (Hw _ H1 : x' = 1), (Hw _ H2 : x = 1). reflexivity.
Qed.

Lemma string_suggestion_least_term_witness :
  ~ List.In "ab"
      (keys (fst (string_suggestion (dictionary_after [("cat", ["b"])])
                    "ab" ["a"])))
  /\ one_edit "ab" "b"
  /\ List.In "b"
       (keys (fst (string_suggestion (dictionary_after [("cat", ["b"])])
                     "ab" ["a"])))
  /\ exists v,
       snd (string_suggestion (dictionary_after [("cat", ["b"])]) "ab" ["a"])
       = Ok v
       /\ one_edit "ab" v
       /\ List.In v
            (keys (fst (string_suggestion (dictionary_after [("cat", ["b"])])
                          "ab" ["a"])))
       /\ (forall c', one_edit "ab" c' ->
             List.In c'
               (keys (fst (string_suggestion
                             (dictionary_after [("cat", ["b"])]) "ab" ["a"]))) ->
             String.leb v c' = true).
Proof.
  assert (~ List.In "ab"
            (keys (fst (string_suggestion (dictionary_after [("cat", ["b"])])
                          "ab" ["a"])))) as Hn
    by (intros [E|[E|[]]]; discriminate).
  assert (one_edit "ab" "b") as He
    by (exists (edits_of "ab"); split; [by_evaluation | in_list]).
  assert (List.In "b"
            (keys (fst (string_suggestion (dictionary_after [("cat", ["b"])])
                          "ab" ["a"])))) as Hk
    by (right; left; reflexivity).
  split; [exact Hn|]. split; [exact He|]. split; [exact Hk|].
  apply (string_suggestion_least_term [("cat", ["b"])] "ab" ["a"] "b"
           Hn He Hk).
Defined.

(** X14.  Weights decide when there is no tie: when the word is not a key
    and one of its edits is a key that weighs strictly more than every other
    edit that is a key, [correct] returns that edit, whatever the order of
    the keys. *)
Theorem correct_returns_heaviest (dictionary : map_t) (word c : string)
    (x : Z) :
  ~ List.In word (keys dictionary) ->
  one_edit word c -> find dictionary c = Some (c, x) ->
  (forall c' x', one_edit word c' -> find dictionary c' = Some (c', x') ->
     c' <> c -> x' < x) ->
  correct_at dictionary word = Ok (line_103, c)
  /\ correct dictionary word = Ok c.
Proof.
  intros Hn (result & He & Hin) Hf Hheavy. apply find_None in Hn.
  assert (List.In c (keys dictionary)) as Hk
    by (apply find_key; now exists x).
  destruct (first_pass_selection dictionary word result c Hn He Hin Hk)
    as (v & xv & Hc & Hv & Hfv & Hmax).
  assert (v = c) as ->.
  { destruct (string_dec v c) as [E|Hne]; [exact E|].
    assert (xv < x) as Hlt
      by (apply (Hheavy v xv); [now exists result | assumption | assumption]).
    destruct (Hmax c x Hin Hf) as [Hle _]. lia. }
  unfold correct. rewrite Hc. now split.
Qed.

Lemma correct_returns_heaviest_witness :
  ~ List.In "cit" (keys [("cat", 1); ("cot", 5)])
  /\ one_edit "cit" "cot"
  /\ find [("cat", 1); ("cot", 5)] "cot" = Some ("cot", 5)
  /\ (forall c' x', one_edit "cit" c' ->
        find [("cat", 1); ("cot", 5)] c' = Some (c', x') ->
        c' <> "cot" -> x' < 5)
  /\ correct_at [("cat", 1); ("cot", 5)] "cit" = Ok (line_103, "cot")
  /\ correct [("cat", 1); ("cot", 5)] "cit" = Ok "cot".
Proof.
  assert (~ List.In "cit" (keys [("cat", 1); ("cot", 5)])) as Hn
    by (intros [E|[E|[]]]; discriminate).
  assert (one_edit "cit" "cot") as He
    by (exists (edits_of "cit"); split; [by_evaluation | in_list]).
  assert (forall c' x', one_edit "cit" c' ->
            find [("cat", 1); ("cot", 5)] c' = Some (c', x') ->
            c' <> "cot" -> x' < 5) as Hheavy.
  { intros c' x' _ Hf Hne. apply find_Some in Hf as [_ [E|[E|[]]]].
    - injection E as <- <-. lia.
    - injection E as <- <-. congruence. }
  split; [exact Hn|]. split; [exact He|]. split; [reflexivity|].
  split; [exact Hheavy|].
  apply (correct_returns_heaviest [("cat", 1); ("cot", 5)] "cit" "cot" 5
           Hn He eq_refl Hheavy).
Defined.

(** X15.  On a word that is not empty [edits] does not fault, and it pushes
    its candidates in this order: the deletions from the first position to
    the last, the transpositions likewise, and then, letter by letter from
    ['a'] to ['z'], the replacements at each position followed by the
    insertions at each position, the end of the word included. *)
Theorem edits_in_order (a : ascii) (w : string) :
  let word := String a w in
  let n := String.length word in
  edits word []
  = Ok (List.map (deletion word) (List.seq 0 n)
        ++ List.map (transposition word) (List.seq 0 (n - 1))
        ++ List.flat_map (fun j =>
             List.map (alteration word j) (List.seq 0 n)
             ++ List.map (insertion word j) (List.seq 0 (S n))) alphabet)%list.
Proof.
  intros word n. unfold word. rewrite edits_nonempty by discriminate.
  reflexivity.
Qed.

(** X16.  A correction is stable: a value that [correct] returns from line
    97, 103 or 116 is a key of the dictionary, and [correct] on that value
    returns it unchanged. *)
Theorem correct_stable (dictionary : map_t) (word v : string)
    (site : return_site) :
  correct_at dictionary word = Ok (site, v) -> site <> line_118 ->
  List.In v (keys dictionary) /\ correct dictionary v = Ok v.
Proof.
  intros H Hsite.
  assert (List.In v (keys dictionary)) as Hv.
  { destruct site.
    - now apply correct_at_inv in H as [-> H].
    - apply correct_at_inv in H as (_ & result & _ & _ & Hb).
      apply best_entry in Hb as [x Hx].
      apply known_entries in Hx as [_ Hf]. apply find_key. now exists x.
    - destruct (second_pass_selection dictionary word v H)
        as (_ & _ & x & _ & _ & _ & _ & Hf & _).
      apply find_key. now exists x.
    - congruence. }
  split; [exact Hv|]. unfold correct.
  now rewrite (correct_at_exact dictionary v Hv).
Qed.

Lemma correct_stable_witness :
  correct_at [("house", 1)] "hoos" = Ok (line_116, "house")
  /\ line_116 <> line_118
  /\ List.In "house" (keys [("house", 1)])
  /\ correct [("house", 1)] "house" = Ok "house".
Proof.
  assert (correct_at [("house", 1)] "hoos" = Ok (line_116, "house")) as H
    by by_evaluation.
  split; [exact H|]. split; [discriminate|].
  apply (correct_stable [("house", 1)] "hoos" "house" line_116 H).
  discriminate.
Defined.
